(** * Hill-cipher image encryption engine (src/hill_cipher.py)

    A shallow embedding of the [HillCipher] class and the statements of its
    specification.  Integers are [Z]; a two-dimensional integer ndarray is a
    list of rows; an image array is a shape together with its row-major data.
    Python exceptions are values of [exn], and a function that may raise
    returns a [result].  NumPy's floating-point determinant is not computed
    here: it is a field of the environment record [Numpy], and the theorems
    say what they need of it. *)

Set Warnings "-notation-overridden,-ambiguous-paths".
Set Warnings "-redundant-canonical-projection,-rewrite-rw".
From Stdlib Require Import String.
From Stdlib Require Import ZArith List Lia Bool SpecFloat.
From HB Require structures.
From mathcomp Require ssreflect ssrfun ssrbool eqtype ssrnat seq choice.
From mathcomp Require fintype bigop ssralg ssrint binnums matrix.
Import ListNotations.
Local Open Scope Z_scope.

(** ** Exceptions and results *)

(** The Python exceptions the engine can raise or catch. *)
Inductive exn : Type :=
| LinAlgError                     (* np.linalg.det: the array is not square *)
| ValueError_no_inverse           (* mod_inverse: Modular inverse does not exist *)
| ValueError_nan                  (* int(nan) *)
| OverflowError                   (* int(inf) *)
| ZeroDivisionError               (* x % 0 *)
| ValueError_key_not_set          (* encrypt_block: Key matrix not set *)
| ValueError_inverse_not_set      (* decrypt_block: Inverse key matrix not calculated *)
| ValueError_shapes               (* np.dot: shapes not aligned *)
| ValueError_negative_dimensions  (* np.zeros(n) with n < 0 *)
| ValueError_reshape              (* reshape: sizes differ *)
| IndexError                      (* image_array[:, :, channel] out of bounds *)
| TypeError                       (* slice bound that is not an integer *)
| AttributeError                  (* None.tolist() *)
| KeyError                        (* key_data['key_matrix'] *)
| OSError.                        (* open() of a missing or unreadable file *)

Definition result (A : Type) : Type := (exn + A)%type.

Definition ret {A : Type} (a : A) : result A := inr a.

Definition raise {A : Type} (e : exn) : result A := inl e.

Definition bind {A B : Type} (r : result A) (f : A -> result B) : result B :=
  match r with
  | inl e => inl e
  | inr a => f a
  end.

Notation "x <- r ;; k" := (bind r (fun x => k))
  (at level 61, r at next level, right associativity).

Fixpoint mapM {A B : Type} (f : A -> result B) (l : list A) : result (list B) :=
  match l with
  | [] => ret []
  | a :: t => b <- f a ;; bs <- mapM f t ;; ret (b :: bs)
  end.

(** ** Integer matrices *)

(** A two-dimensional integer ndarray, as the list of its rows. *)
Definition zmatrix : Type := list (list Z).

Definition entry (M : zmatrix) (i j : nat) : Z := nth j (nth i M []) 0.

Definition ncols (M : zmatrix) : nat := length (hd [] M).

(** Every row has as many entries as there are rows. *)
Definition is_square (M : zmatrix) : bool :=
  forallb (fun row => (length row =? length M)%nat) M.

(** [np.delete(l, i)] for an index in range. *)
Fixpoint delete {A : Type} (i : nat) (l : list A) {struct l} : list A :=
  match l, i with
  | [], _ => []
  | _ :: t, O => t
  | x :: t, S i' => x :: delete i' t
  end.

(** [np.delete(np.delete(matrix, i, axis=0), j, axis=1)]. *)
Definition minor (M : zmatrix) (i j : nat) : zmatrix :=
  map (delete j) (delete i M).

(** [(-1) ** k]. *)
Definition sign (k : nat) : Z := if Nat.even k then 1 else -1.

Definition sumZ (l : list Z) : Z := fold_right Z.add 0 l.

(** The sum of [f k] for [k] in [range(n)]. *)
Definition sum_upto (n : nat) (f : nat -> Z) : Z := sumZ (map f (seq 0 n)).

(** The exact integer determinant of the leading [n] by [n] block, by
    cofactor expansion along the first row. *)
Fixpoint det_n (n : nat) (M : zmatrix) : Z :=
  match n with
  | O => 1
  | S n' => sum_upto n (fun j => sign j * entry M 0 j * det_n n' (minor M 0 j))
  end.

Definition det (M : zmatrix) : Z := det_n (length M) M.

(** The product of [A] and [B] is the identity modulo [m], entry by entry,
    on the leading [n] by [n] block. *)
Definition inverse_mod (n : nat) (m : Z) (A B : zmatrix) : Prop :=
  forall i j : nat, (i < n)%nat -> (j < n)%nat ->
    (sum_upto n (fun k => entry A i k * entry B k j)) mod m
    = (if (i =? j)%nat then 1 else 0) mod m.

Definition entries_between (lo hi : Z) (M : zmatrix) : Prop :=
  Forall (Forall (fun x => lo <= x < hi)) M.

(** ** Machine integers *)

(** A 64-bit signed integer operation wraps around. *)
Definition wrap64 (x : Z) : Z := (x + 2 ^ 63) mod 2 ^ 64 - 2 ^ 63.

(** [x.astype(np.uint8)]. *)
Definition astype_uint8 (x : Z) : Z := x mod 256.

(** ** Floating point *)

(** A binary64 value.  [is_binary64] says that a finite one has a mantissa
    below [2^53] and an exponent in range. *)
Definition float64 : Type := spec_float.

Definition is_binary64 (x : float64) : bool := valid_binary 53 1024 x.

(** The integer nearest to [num / den], ties to the even one ([den > 0]). *)
Definition round_half_even (num den : Z) : Z :=
  let q := num / den in
  let r := num mod den in
  if 2 * r <? den then q
  else if den <? 2 * r then q + 1
  else if Z.even q then q else q + 1.

(** [int(np.round(x))]: [np.round] rounds half to even and leaves nan and the
    infinities as they are; [int] raises on those. *)
Definition int_np_round (x : float64) : result Z :=
  match x with
  | S754_zero _ => ret 0
  | S754_finite s m e =>
      let v := if s then Z.neg m else Z.pos m in
      ret (if 0 <=? e then v * 2 ^ e else round_half_even v (2 ^ (- e)))
  | S754_nan => raise ValueError_nan
  | S754_infinity _ => raise OverflowError
  end.

(** [|x - d| < 1/2] for a finite [x]: the float is within one half of the
    integer [d]. *)
Definition within_half (x : float64) (d : Z) : Prop :=
  match x with
  | S754_zero _ => d = 0
  | S754_finite s m e =>
      let v := if s then Z.neg m else Z.pos m in
      if 0 <=? e then v * 2 ^ e = d
      else Z.abs (2 * v - 2 * d * 2 ^ (- e)) < 2 ^ (- e)
  | _ => False
  end.

(** [2 * |x - d| <= |d|] for a finite [x]: a relative error of at most one
    half. *)
Definition within_half_relative (x : float64) (d : Z) : Prop :=
  match x with
  | S754_zero _ => d = 0
  | S754_finite s m e =>
      let v := if s then Z.neg m else Z.pos m in
      if 0 <=? e then 2 * Z.abs (v * 2 ^ e - d) <= Z.abs d
      else 2 * Z.abs (v - d * 2 ^ (- e)) <= Z.abs d * 2 ^ (- e)
  | _ => False
  end.

(** What the engine takes from NumPy without computing it itself:
    [np.linalg.det] on a square array (LU factorisation in binary64), and the
    integer stored when a non-finite float is written into an integer array
    (platform defined). *)
Record Numpy : Type := {
  linalg_det_float : zmatrix -> float64;
  nan_as_int64 : Z
}.

(** [np.linalg.det(matrix)]: raises LinAlgError unless the array is square. *)
Definition np_linalg_det (np : Numpy) (M : zmatrix) : result float64 :=
  if is_square M then ret (linalg_det_float np M) else raise LinAlgError.

(** [int(np.round(np.linalg.det(matrix)))], the determinant the engine uses
    (generate_random_key and matrix_inverse_mod). *)
Definition rounded_det (np : Numpy) (M : zmatrix) : result Z :=
  x <- np_linalg_det np M ;; int_np_round x.

(** A NumPy whose determinant is the binary64 value nearest to the exact one. *)
Definition correctly_rounded_numpy : Numpy := {|
  linalg_det_float := fun M => binary_normalize 53 1024 (det M) 0 false;
  nan_as_int64 := - 2 ^ 63
|}.

(** The float determinant of [M] is within one half of the exact one. *)
Definition det_accurate (np : Numpy) (M : zmatrix) : Prop :=
  within_half (linalg_det_float np M) (det M).

(** The same for every minor the cofactor loop visits. *)
Definition minors_accurate (np : Numpy) (M : zmatrix) : Prop :=
  forall i j : nat, (i < length M)%nat -> (j < length M)%nat ->
    det_accurate np (minor M i j).

(** ** Example matrices *)

(** The key of the specification's round-trip example; determinant 11. *)
Definition K_3257 : zmatrix := [[3; 2]; [5; 7]].

(** Its inverse modulo 256. *)
Definition K_3257_inverse : zmatrix := [[117; 186]; [209; 233]].

(** The singular matrix of the specification's rejection example. *)
Definition K_singular : zmatrix := [[2; 4]; [1; 2]].

(** A three by three key; determinant -3. *)
Definition K_3x3 : zmatrix := [[2; 3; 1]; [1; 1; 1]; [0; 1; 2]].

(** [255] times the identity of dimension [n]. *)
Definition scalar_255 (n : nat) : zmatrix :=
  map (fun i => map (fun j => if (i =? j)%nat then 255 else 0) (seq 0 n))
      (seq 0 n).

(** A two by two matrix whose determinant [2^53 + 1] is no binary64 value. *)
Definition M_2p53 : zmatrix := [[2 ^ 53 + 1; 0]; [0; 1]].

(** A two by three array. *)
Definition M_2x3 : zmatrix := [[1; 2; 3]; [4; 5; 6]].

(** A two by two matrix with determinant [2^60 + 1], a unit modulo 256. *)
Definition M_2p60 : zmatrix := [[2 ^ 60 + 1; 0]; [0; 1]].

(** ** Modular arithmetic (gcd, mod_inverse) *)

(** The loop [while b: a, b = b, a % b] of [gcd], with at most [fuel] turns. *)
Fixpoint gcd_loop (fuel : nat) (a b : Z) : Z :=
  match fuel with
  | O => a
  | S fuel' => if b =? 0 then a else gcd_loop fuel' b (a mod b)
  end.

(** [HillCipher.gcd]: [|b|] shrinks at every turn, so [|b| + 1] turns reach
    [b = 0]. *)
Definition gcd (a b : Z) : Z := gcd_loop (S (Z.abs_nat b)) a b.

(** The nested [extended_gcd(a, b)] of [mod_inverse], with recursion depth at
    most [fuel]. *)
Fixpoint extended_gcd_rec (fuel : nat) (a b : Z) : Z * Z * Z :=
  match fuel with
  | O => (b, 0, 1)
  | S fuel' =>
      if a =? 0 then (b, 0, 1)
      else
        let '(g, x1, y1) := extended_gcd_rec fuel' (b mod a) a in
        (g, y1 - (b / a) * x1, x1)
  end.

Definition extended_gcd (a b : Z) : Z * Z * Z :=
  extended_gcd_rec (S (Z.abs_nat a)) a b.

(** [HillCipher.mod_inverse]. *)
Definition mod_inverse (a m : Z) : result Z :=
  if negb (gcd a m =? 1) then raise ValueError_no_inverse
  else if m =? 0 then raise ZeroDivisionError
  else
    let '(_, x, _) := extended_gcd (a mod m) m in
    ret ((x mod m + m) mod m).

(** ** Modular matrix inversion (matrix_inverse_mod) *)

(** The two by two branch: [[m11, -m01], [-m10, m00]]. *)
Definition adjugate_2x2 (M : zmatrix) : zmatrix :=
  [ [ entry M 1 1; wrap64 (- entry M 0 1) ];
    [ wrap64 (- entry M 1 0); entry M 0 0 ] ].

(** What the loop body stores at [adjugate[j, i]]: the rounded float
    determinant of the minor, signed, reduced modulo [m] (a float in
    [0, m)), then cast to the integer array. *)
Definition cofactor_mod (np : Numpy) (M : zmatrix) (m : Z) (i j : nat) : Z :=
  match int_np_round (linalg_det_float np (minor M i j)) with
  | inr d => (sign (i + j) * d) mod m
  | inl _ => nan_as_int64 np
  end.

(** The cofactor branch.  The two loops write every cell of the zero array
    once, cell [(j, i)] from the minor at [(i, j)]; row [r], column [c] of
    the outcome is therefore the cofactor at [(c, r)].  The array is square
    here (np.linalg.det has accepted it), so both indices run over
    [range(shape[0])]. *)
Definition adjugate_cofactor (np : Numpy) (M : zmatrix) (m : Z) : zmatrix :=
  map (fun r => map (fun c => cofactor_mod np M m c r) (seq 0 (length M)))
      (seq 0 (length M)).

Definition matrix_inverse_mod (np : Numpy) (matrix : zmatrix) (m : Z)
  : result zmatrix :=
  d <- rounded_det np matrix ;;
  if m =? 0 then raise ZeroDivisionError
  else
    let det := d mod m in
    det_inv <- mod_inverse det m ;;
    let adjugate :=
      if (length matrix =? 2)%nat then adjugate_2x2 matrix
      else adjugate_cofactor np matrix m in
    ret (map (map (fun a => wrap64 (det_inv * a) mod m)) adjugate).

(** ** The cipher instance *)

Record HillCipher : Type := {
  block_size : Z;
  key_matrix : option zmatrix;
  inverse_key_matrix : option zmatrix
}.

(** [HillCipher.set_key_matrix]: the new state, the value returned, and the
    exception whose text is printed after [Invalid key matrix:]. *)
Definition set_key_matrix (np : Numpy) (self : HillCipher) (K : zmatrix)
  : HillCipher * bool * option exn :=
  let self1 := {| block_size := block_size self;
                  key_matrix := Some K;
                  inverse_key_matrix := inverse_key_matrix self |} in
  match matrix_inverse_mod np K 256 with
  | inr inverse =>
      ({| block_size := block_size self1;
          key_matrix := key_matrix self1;
          inverse_key_matrix := Some inverse |}, true, None)
  | inl e => (self1, false, Some e)
  end.

(** [HillCipher.__init__]. *)
Definition HillCipher_init (np : Numpy) (K : option zmatrix) (bs : Z)
  : HillCipher :=
  let self := {| block_size := bs; key_matrix := K;
                 inverse_key_matrix := None |} in
  match K with
  | Some M => fst (fst (set_key_matrix np self M))
  | None => self
  end.

(** [HillCipher.generate_random_key].  [samples] are the successive draws of
    [np.random.randint(0, 256, (block_size, block_size))]; [None] says that
    all of them were refused and the loop is still running. *)
Fixpoint generate_random_key (np : Numpy) (self : HillCipher)
  (samples : list zmatrix) : option (HillCipher * zmatrix) :=
  match samples with
  | [] => None
  | key :: rest =>
      match rounded_det np key with
      | inr d =>
          if gcd (d mod 256) 256 =? 1
          then Some (fst (fst (set_key_matrix np self key)), key)
          else generate_random_key np self rest
      | inl _ => generate_random_key np self rest
      end
  end.

(** ** Blocks (pad_data, encrypt_block, decrypt_block) *)

(** [HillCipher.pad_data]. *)
Definition pad_data (self : HillCipher) (data : list Z) : result (list Z) :=
  if block_size self =? 0 then raise ZeroDivisionError
  else
    let remainder := Z.of_nat (length data) mod block_size self in
    if negb (remainder =? 0) then
      let padding := block_size self - remainder in
      if padding <? 0 then raise ValueError_negative_dimensions
      else ret (data ++ repeat 0 (Z.to_nat padding))
    else ret data.

(** [np.dot(A, v)] of a two-dimensional and a one-dimensional array, in
    64-bit integers. *)
Definition np_dot (A : zmatrix) (v : list Z) : result (list Z) :=
  if (ncols A =? length v)%nat
  then ret (map (fun row => wrap64 (sumZ (map (fun p => fst p * snd p) (combine row v)))) A)
  else raise ValueError_shapes.

(** [HillCipher.encrypt_block]. *)
Definition encrypt_block (self : HillCipher) (block : list Z) : result (list Z) :=
  match key_matrix self with
  | None => raise ValueError_key_not_set
  | Some K =>
      v <- np_dot K block ;;
      ret (map (fun x => astype_uint8 (x mod 256)) v)
  end.

(** [HillCipher.decrypt_block]. *)
Definition decrypt_block (self : HillCipher) (block : list Z) : result (list Z) :=
  match inverse_key_matrix self with
  | None => raise ValueError_inverse_not_set
  | Some Kinv =>
      v <- np_dot Kinv block ;;
      ret (map (fun x => astype_uint8 (x mod 256)) v)
  end.

(** The slices [data[i:i+bs]] for [i] in [range(0, len(data), bs)]. *)
Fixpoint blocks_from (fuel bs : nat) (data : list Z) : list (list Z) :=
  match fuel, data with
  | S fuel', _ :: _ => firstn bs data :: blocks_from fuel' bs (skipn bs data)
  | _, _ => []
  end.

Definition blocks (bs : Z) (data : list Z) : list (list Z) :=
  if bs <=? 0 then [] else blocks_from (length data) (Z.to_nat bs) data.

(** The body shared by the four loops of encrypt_image and decrypt_image:
    pad one flattened channel, transform it block by block, and concatenate
    the transformed blocks. *)
Definition transform_channel (f : list Z -> result (list Z))
  (self : HillCipher) (channel_data : list Z) : result (list Z) :=
  padded <- pad_data self channel_data ;;
  out <- mapM f (blocks (block_size self) padded) ;;
  ret (concat out).

(** A cipher holding the example key and its inverse, block size two. *)
Definition cipher_3257 : HillCipher := {|
  block_size := 2;
  key_matrix := Some K_3257;
  inverse_key_matrix := Some K_3257_inverse
|}.

(** The engine's own test of a key: set_key_matrix returns [True] exactly
    when matrix_inverse_mod returns. *)
Definition accepted_key (np : Numpy) (K : zmatrix) : Prop :=
  exists Kinv : zmatrix, matrix_inverse_mod np K 256 = inr Kinv.

(** ** Images (encrypt_image, decrypt_image) *)

(** An 8-bit image array: its shape and its elements in row-major order. *)
Record ndarray : Type := {
  shape : list nat;
  data : list Z
}.

(** What [Image.open] yields and [Image.fromarray] takes: a mode tag and the
    pixel array.  Encoding to and decoding from an image file is outside the
    engine and is not modelled. *)
Record image : Type := {
  mode : string;
  pixels : ndarray
}.

(** The metadata record written beside the encrypted image. *)
Record metadata : Type := {
  original_shape : list nat;
  image_mode : string;
  md_block_size : Z;
  md_key_matrix : zmatrix
}.

(** [np.prod(shape)]. *)
Definition prod (dims : list nat) : nat := fold_right Nat.mul 1%nat dims.

(** [image_array[:, :, channel].flatten()].  Image arrays have two or three
    dimensions; with fewer than three the index expression raises. *)
Definition channel_data (a : ndarray) (channel : nat) : result (list Z) :=
  match shape a with
  | [h; w; c] =>
      if (channel <? c)%nat
      then ret (map (fun k => nth (k * c + channel) (data a) 0) (seq 0 (h * w)))
      else raise IndexError
  | _ => raise IndexError
  end.

(** [np.array(channels).T[:np.prod(original_shape[:2])].reshape(original_shape)]:
    the channel lists become the columns, the first rows are kept, and the
    reshape demands the element count of [original_shape]. *)
Definition reassemble_channels (channels : list (list Z))
  (original_shape : list nat) : result ndarray :=
  let len := length (hd [] channels) in
  let n := prod (firstn 2 original_shape) in
  let rows := map (fun k => map (fun ch => nth k ch 0) channels)
                  (seq 0 (Nat.min n len)) in
  let flat := concat rows in
  if (length flat =? prod original_shape)%nat
  then ret {| shape := original_shape; data := flat |}
  else raise ValueError_reshape.

(** [np.array(out)[:np.prod(original_shape)].reshape(original_shape)].
    [np.prod(())] is the float [1.0], which is no slice bound. *)
Definition reassemble_flat (out : list Z) (original_shape : list nat)
  : result ndarray :=
  match original_shape with
  | [] => raise TypeError
  | _ =>
      let flat := firstn (prod original_shape) out in
      if (length flat =? prod original_shape)%nat
      then ret {| shape := original_shape; data := flat |}
      else raise ValueError_reshape
  end.

(** The branch on [len(original_shape) == 3] shared by encrypt_image and
    decrypt_image, with [f] the block transformation. *)
Definition transform_array (f : list Z -> result (list Z)) (self : HillCipher)
  (image_array : ndarray) (original_shape : list nat) : result ndarray :=
  if (length original_shape =? 3)%nat then
    channels <-
      mapM (fun channel =>
              flat <- channel_data image_array channel ;;
              transform_channel f self flat)
           (seq 0 (nth 2 original_shape 0%nat)) ;;
    reassemble_channels channels original_shape
  else
    out <- transform_channel f self (data image_array) ;;
    reassemble_flat out original_shape.

(** [HillCipher.encrypt_image], from the opened image to the image and the
    metadata it saves.  [inl e] is the return value
    [(False, "Encryption failed: e")]. *)
Definition encrypt_image (self : HillCipher) (img : image)
  : result (image * metadata) :=
  let image_array := pixels img in
  let original_shape := shape image_array in
  encrypted_array <-
    transform_array (encrypt_block self) self image_array original_shape ;;
  match key_matrix self with
  | None => raise AttributeError
  | Some K =>
      ret ({| mode := mode img; pixels := encrypted_array |},
           {| original_shape := original_shape;
              image_mode := mode img;
              md_block_size := block_size self;
              md_key_matrix := K |})
  end.

(** [HillCipher.decrypt_image], from the opened encrypted image and the
    metadata file, [None] when that file does not exist, to the image it
    saves.  [inl e] is the return value [(False, "Decryption failed: e")]. *)
Definition decrypt_image (self : HillCipher) (img : image)
  (md : option metadata) : result image :=
  let '(original_shape, image_mode) :=
    match md with
    | Some m => (original_shape m, image_mode m)
    | None => (shape (pixels img), mode img)
    end in
  let image_array := pixels img in
  decrypted_array <-
    transform_array (decrypt_block self) self image_array original_shape ;;
  ret {| mode := image_mode; pixels := decrypted_array |}.

(** The specification's padding example: one channel of five pixels. *)
Definition image_1x5 : image := {|
  mode := "L";
  pixels := {| shape := [1%nat; 5%nat]; data := [10; 20; 30; 40; 50] |}
|}.

(** What encrypt_image saves for it under the example key. *)
Definition cipher_1x5 : image := {|
  mode := "L";
  pixels := {| shape := [1%nat; 5%nat]; data := [70; 190; 170; 174; 150] |}
|}.

Definition metadata_1x5 : metadata := {|
  original_shape := [1%nat; 5%nat];
  image_mode := "L";
  md_block_size := 2;
  md_key_matrix := K_3257
|}.

(** A color image of one row and two pixels. *)
Definition image_1x2_rgb : image := {|
  mode := "RGB";
  pixels := {| shape := [1%nat; 2%nat; 3%nat]; data := [1; 2; 3; 4; 5; 6] |}
|}.

(** The metadata that describes the encrypted image itself. *)
Definition metadata_of_image (self : HillCipher) (img : image) : metadata := {|
  original_shape := shape (pixels img);
  image_mode := mode img;
  md_block_size := block_size self;
  md_key_matrix := match key_matrix self with Some K => K | None => [] end
|}.

(** ** Key files (save_key, load_key) *)

(** The JSON object of a key file: each member may be missing. *)
Record key_data : Type := {
  kd_key_matrix : option zmatrix;
  kd_block_size : option Z
}.

(** [HillCipher.save_key]: the value returned and, when it is [True], the
    object written to the file. *)
Definition save_key (self : HillCipher) : bool * option key_data :=
  match key_matrix self with
  | None => (false, None)
  | Some K =>
      (true, Some {| kd_key_matrix := Some K;
                     kd_block_size := Some (block_size self) |})
  end.

(** [HillCipher.load_key]: [file] is the object read from the key file,
    [None] when the file cannot be opened or parsed. *)
Definition load_key (np : Numpy) (self : HillCipher) (file : option key_data)
  : HillCipher * bool :=
  match file with
  | None => (self, false)
  | Some kd =>
      match kd_key_matrix kd with
      | None => (self, false)
      | Some K =>
          let self1 :=
            {| block_size := match kd_block_size kd with
                             | Some bs => bs
                             | None => 2
                             end;
               key_matrix := key_matrix self;
               inverse_key_matrix := inverse_key_matrix self |} in
          let '(self2, ok, _) := set_key_matrix np self1 K in
          (self2, ok)
      end
  end.

(** ** Vocabulary of the statements *)

(** The index in [l] of position [r] of [delete i l]. *)
Definition skip (i r : nat) : nat := if (r <? i)%nat then r else S r.

(** What encrypt_block and decrypt_block compute with a square matrix. *)
Definition apply_mod256 (A : zmatrix) (v : list Z) : list Z :=
  map (fun row =>
         astype_uint8
           (wrap64 (sum_upto (length A) (fun j => nth j row 0 * nth j v 0))
            mod 256))
      A.

(** What transform_channel computes on aligned data with a block function
    that is the application of a square matrix. *)
Definition apply_blocks (A : zmatrix) (d : list Z) : list Z :=
  concat (map (apply_mod256 A) (blocks_from (length d) (length A) d)).

(** The channels of [m] pixels with [c] interleaved samples each. *)
Definition deinterleave (c m : nat) (d : list Z) : list (list Z) :=
  map (fun k => map (fun i => nth (i * c + k) d 0) (seq 0 m)) (seq 0 c).

(** The pixels of [m] samples per channel, channel lists as columns. *)
Definition interleave (m : nat) (channels : list (list Z)) : list Z :=
  concat (map (fun i => map (fun ch => nth i ch 0) channels) (seq 0 m)).

(** An 8-bit array: as many elements as the shape says, each in [0, 255]. *)
Definition well_formed (a : ndarray) : Prop :=
  length (data a) = prod (shape a)
  /\ Forall (fun x => 0 <= x < 256) (data a).

(** The length of one flattened channel: height times width for an array
    with a channel dimension, the whole array otherwise. *)
Definition channel_length (sh : list nat) : nat :=
  match sh with
  | [h; w; _] => (h * w)%nat
  | _ => prod sh
  end.

(** The array whose channels are those of [a], each transformed block by
    block by the matrix [A]. *)
Definition apply_array (A : zmatrix) (a : ndarray) : ndarray :=
  match shape a with
  | [h; w; c] =>
      {| shape := shape a;
         data := interleave (h * w)
                   (map (apply_blocks A) (deinterleave c (h * w) (data a))) |}
  | _ => {| shape := shape a; data := apply_blocks A (data a) |}
  end.

(** The rounded float determinant of [M] is a unit modulo 256: the test of
    generate_random_key. *)
Definition unit_determinant (np : Numpy) (M : zmatrix) : Prop :=
  exists d : Z, rounded_det np M = inr d /\ Z.gcd (d mod 256) 256 = 1.

(** The sum of two blocks, value by value, as 8-bit values. *)
Definition add_mod256 (b1 b2 : list Z) : list Z :=
  map (fun p => (fst p + snd p) mod 256) (combine b1 b2).

(** A channel followed by the zeros that make its length a multiple of
    [n]. *)
Definition padded (n : nat) (d : list Z) : list Z :=
  d ++ repeat 0 ((n - length d mod n) mod n)%nat.

(** What transform_array returns for an array and its own shape when the
    block function applies the square matrix [A] and the block size is the
    dimension of [A]: every channel is padded, transformed block by block
    and cut back to its length. *)
Definition transform_image (A : zmatrix) (a : ndarray) : ndarray :=
  match shape a with
  | [h; w; c] =>
      {| shape := shape a;
         data := interleave (h * w)
                   (map (fun ch => apply_blocks A (padded (length A) ch))
                        (deinterleave c (h * w) (data a))) |}
  | _ =>
      {| shape := shape a;
         data := firstn (prod (shape a))
                   (apply_blocks A (padded (length A) (data a))) |}
  end.

(** The samples of one pixel: the channel count of an array with a channel
    dimension, one otherwise. *)
Definition samples_per_pixel (sh : list nat) : nat :=
  match sh with
  | [_; _; c] => c
  | _ => 1%nat
  end.

(** * Properties *)

(** ** Lists, sums and minors *)

Lemma sumZ_app (l1 l2 : list Z) : sumZ (l1 ++ l2) = sumZ l1 + sumZ l2.
Proof.
  induction l1 as [|x t IH]; simpl; [reflexivity | rewrite IH; lia].
Qed.

Lemma sum_upto_S (n : nat) (f : nat -> Z) :
  sum_upto (S n) f = sum_upto n f + f n.
Proof.
  unfold sum_upto. rewrite seq_S, map_app, sumZ_app. simpl. lia.
Qed.

Lemma sum_upto_ext (n : nat) (f g : nat -> Z) :
  (forall k, (k < n)%nat -> f k = g k) -> sum_upto n f = sum_upto n g.
Proof.
  induction n as [|n IH]; intros H; [reflexivity|].
  rewrite !sum_upto_S, IH, (H n) by (intros; try apply H; lia). reflexivity.
Qed.

Lemma sign_S (k : nat) : sign (S k) = - sign k.
Proof.
  unfold sign. rewrite Nat.even_succ, <- Nat.negb_even.
  destruct (Nat.even k); reflexivity.
Qed.

Lemma nth_delete {A : Type} (d : A) (i r : nat) (l : list A) :
  nth r (delete i l) d = nth (skip i r) l d.
Proof.
  revert i r; induction l as [|x t IH]; intros i r; simpl.
  - unfold skip. destruct (r <? i)%nat; destruct r; reflexivity.
  - destruct i as [|i'].
    + reflexivity.
    + destruct r as [|r']; simpl; [reflexivity|].
      rewrite IH. unfold skip.
      change (S r' <? S i')%nat with (r' <? i')%nat.
      destruct (r' <? i')%nat; reflexivity.
Qed.

Lemma entry_minor (M : zmatrix) (i j r c : nat) :
  entry (minor M i j) r c = entry M (skip i r) (skip j c).
Proof.
  unfold entry, minor.
  replace (nth r (map (delete j) (delete i M)) [])
    with (delete j (nth r (delete i M) [])).
  - rewrite !nth_delete. reflexivity.
  - change (@nil Z) with (delete j (@nil Z)) at 2. rewrite map_nth. reflexivity.
Qed.

(** ** The adjugate identity, from MathComp's determinant

    The list matrices are read as matrices over the ring [Z]; MathComp's
    [mul_adj_mx] then gives the expansion of the determinant along any
    column, and the vanishing of the mixed expansions. *)

Module AdjugateTheory.
Import HB.structures.
Import ssreflect ssrfun ssrbool eqtype ssrnat seq choice.
Import fintype bigop ssralg ssrint matrix.
Import GRing.Theory.
Delimit Scope Z_scope with Z.

Definition Z_of_int (n : int) : Z :=
  match n with
  | Posz k => Z.of_nat k
  | Negz k => Z.opp (Z.of_nat (S k))
  end.

Lemma int_of_ZK : cancel binnums.int_of_Z Z_of_int.
Proof.
case=> [|p|p] //=.
- by rewrite positive_nat_Z.
- congr Z.neg; apply: Pos2Nat.inj.
  by rewrite SuccNat2Pos.id_succ prednK //; exact: binnums.Pos_to_nat_gt0.
Qed.

HB.instance Definition _ := Countable.copy Z (can_type int_of_ZK).

HB.instance Definition _ :=
  GRing.isZmodule.Build Z Z.add_assoc Z.add_comm Z.add_0_l Z.add_opp_diag_l.

Lemma Z_1_neq_0 : (1%Z != 0%Z).
Proof. by []. Qed.

HB.instance Definition _ :=
  GRing.Zmodule_isComNzRing.Build Z
    Z.mul_assoc Z.mul_comm Z.mul_1_l Z.mul_add_distr_r Z_1_neq_0.

Local Open Scope ring_scope.

(** The leading [n] by [n] block of a list matrix, as a MathComp matrix. *)
Definition mx (n : nat) (M : zmatrix) : 'M[Z]_n :=
  \matrix_(i, j) entry M (nat_of_ord i) (nat_of_ord j).

Lemma big_ord_sum_upto (n : nat) (f : nat -> Z) :
  \sum_(k < n) f (nat_of_ord k) = sum_upto n f.
Proof.
elim: n => [|n IH]; first by rewrite big_ord0.
by rewrite big_ord_recr /= IH sum_upto_S.
Qed.

Lemma exp_sign (k : nat) : ((-1) ^+ k : Z) = sign k.
Proof.
elim: k => [|k IH] //.
by rewrite exprS IH sign_S mulN1r.
Qed.

Lemma skip_bump (i r : nat) : skip i r = bump i r.
Proof.
rewrite /skip /bump.
case: (Nat.ltb_spec r i) => [/ltP h|/leP h].
- by rewrite leqNgt h.
- by rewrite h.
Qed.

Lemma mx_minor (n : nat) (M : zmatrix) (i j : 'I_n.+1) :
  mx n (minor M i j) = row' i (col' j (mx n.+1 M)).
Proof.
apply/matrixP => r c; rewrite !mxE entry_minor.
by rewrite !skip_bump.
Qed.

Lemma det_n_mx (n : nat) (M : zmatrix) : det_n n M = \det (mx n M).
Proof.
elim: n M => [|n IH] M; first by rewrite det_mx00.
rewrite (expand_det_row _ ord0) -[LHS]/(sum_upto n.+1 _) -big_ord_sum_upto.
apply: eq_bigr => j _.
by rewrite /cofactor -mx_minor -IH !mxE add0n exp_sign mulrCA mulrA.
Qed.

(** Column [i] of the cofactors against column [j] of the matrix. *)
Lemma cofactor_column_sum (n : nat) (M : zmatrix) (i j : nat) :
  Nat.lt i (S n) -> Nat.lt j (S n) ->
  sum_upto (S n)
    (fun k => Z.mul (Z.mul (sign (k + i)) (det_n n (minor M k i))) (entry M k j))
  = if Nat.eqb i j then det_n (S n) M else Z0.
Proof.
move=> /ltP hi /ltP hj.
have := mul_adj_mx (mx n.+1 M).
move/matrixP/(_ (Ordinal hi) (Ordinal hj)).
rewrite !mxE -det_n_mx -big_ord_sum_upto mulrb.
have -> : (Ordinal hi == Ordinal hj) = (i == j) by [].
have -> : Nat.eqb i j = (i == j).
  by apply/idP/eqP => [/Nat.eqb_eq|->] //; exact: Nat.eqb_refl.
move=> <-; apply: eq_bigr => k _.
by rewrite !mxE /cofactor -mx_minor -det_n_mx exp_sign.
Qed.

End AdjugateTheory.

(** The expansion of the determinant along column [i], and the mixed
    expansions, in the vocabulary of the engine. *)
Lemma cofactor_expansion (n : nat) (M : zmatrix) (i j : nat) :
  (i < n)%nat -> (j < n)%nat ->
  sum_upto n (fun k => sign (k + i) * det_n (n - 1) (minor M k i) * entry M k j)
  = if (i =? j)%nat then det_n n M else 0.
Proof.
  intros Hi Hj. destruct n as [|n]; [lia|].
  replace (S n - 1)%nat with n by lia.
  apply AdjugateTheory.cofactor_column_sum; assumption.
Qed.

(** ** gcd and mod_inverse *)

Lemma gcd_loop_spec (fuel : nat) : forall a b : Z,
  0 <= a -> 0 <= b -> (Z.abs_nat b < fuel)%nat -> gcd_loop fuel a b = Z.gcd a b.
Proof.
  induction fuel as [|fuel IH]; intros a b Ha Hb Hf; [lia|].
  simpl. destruct (Z.eqb_spec b 0) as [->|Hnz].
  - rewrite Z.gcd_0_r. lia.
  - assert (0 <= a mod b < b) by (apply Z.mod_pos_bound; lia).
    rewrite IH by lia.
    rewrite (Z.gcd_comm b), Z.gcd_mod by lia. apply Z.gcd_comm.
Qed.

(** The loop of [gcd] computes the greatest common divisor. *)
Lemma gcd_spec (a b : Z) : 0 <= a -> 0 <= b -> gcd a b = Z.gcd a b.
Proof.
  intros Ha Hb. unfold gcd. apply gcd_loop_spec; lia.
Qed.

Lemma extended_gcd_rec_spec (fuel : nat) : forall a b g x y : Z,
  0 <= a -> 0 <= b -> (Z.abs_nat a < fuel)%nat ->
  extended_gcd_rec fuel a b = (g, x, y) ->
  a * x + b * y = g /\ g = Z.gcd a b.
Proof.
  induction fuel as [|fuel IH]; intros a b g x y Ha Hb Hf; [lia|].
  simpl. destruct (Z.eqb_spec a 0) as [->|Hnz].
  - intros E. injection E as <- <- <-. rewrite Z.gcd_0_l. lia.
  - destruct (extended_gcd_rec fuel (b mod a) a) as [[g' x1] y1] eqn:E.
    intros E'. injection E' as <- <- <-.
    assert (0 <= b mod a < a) by (apply Z.mod_pos_bound; lia).
    destruct (IH _ _ _ _ _ (proj1 H) Ha ltac:(lia) E) as [Hlin Hg].
    split.
    + pose proof (Z.div_mod b a Hnz). nia.
    + rewrite Hg. rewrite Z.gcd_mod by lia. reflexivity.
Qed.

Lemma extended_gcd_spec (a b g x y : Z) :
  0 <= a -> 0 <= b -> extended_gcd a b = (g, x, y) ->
  a * x + b * y = g /\ g = Z.gcd a b.
Proof.
  intros Ha Hb. unfold extended_gcd. apply extended_gcd_rec_spec; lia.
Qed.

(** [mod_inverse] returns the inverse of a unit, reduced to [[0, m)]. *)
Lemma mod_inverse_unit (a m : Z) :
  0 <= a -> 0 < m -> Z.gcd a m = 1 ->
  exists x, mod_inverse a m = inr x /\ 0 <= x < m /\ (x * a) mod m = 1 mod m.
Proof.
  intros Ha Hm Hg. unfold mod_inverse.
  rewrite gcd_spec, Hg by lia. simpl.
  destruct (Z.eqb_spec m 0) as [?|_]; [lia|].
  destruct (extended_gcd (a mod m) m) as [[g x] y] eqn:E.
  assert (0 <= a mod m < m) by (apply Z.mod_pos_bound; lia).
  destruct (extended_gcd_spec (a mod m) m g x y (proj1 H) ltac:(lia) E)
    as [Hlin Hgcd].
  rewrite Z.gcd_mod, Z.gcd_comm, Hg in Hgcd by lia. subst g.
  exists ((x mod m + m) mod m). split; [reflexivity|]. split.
  - apply Z.mod_pos_bound; lia.
  - rewrite <- Z.add_mod_idemp_r, Z.mod_same, Z.add_0_r, Z.mod_mod by lia.
    rewrite Z.mul_mod_idemp_l by lia.
    rewrite <- Z.mul_mod_idemp_r by lia.
    rewrite Z.mul_comm.
    replace (a mod m * x) with (1 + (- y) * m) by lia.
    rewrite Z.mod_add by lia. reflexivity.
Qed.

(** [mod_inverse] raises on a residue that is no unit. *)
Lemma mod_inverse_no_unit (a m : Z) :
  0 <= a -> 0 <= m -> Z.gcd a m <> 1 -> mod_inverse a m = inl ValueError_no_inverse.
Proof.
  intros Ha Hm Hg. unfold mod_inverse. rewrite gcd_spec by lia.
  destruct (Z.eqb_spec (Z.gcd a m) 1); [contradiction | reflexivity].
Qed.

(** ** Rounding *)

Lemma round_half_even_near (num den d : Z) :
  0 < den -> Z.abs (2 * num - 2 * d * den) < den -> round_half_even num den = d.
Proof.
  intros Hden Habs. unfold round_half_even.
  pose proof (Z.div_mod num den ltac:(lia)) as Hdm.
  pose proof (Z.mod_pos_bound num den Hden) as Hr.
  set (q := num / den) in *. set (r := num mod den) in *.
  destruct (Z.ltb_spec (2 * r) den); [nia|].
  destruct (Z.ltb_spec den (2 * r)); [nia|].
  assert (2 * r = den) by lia.
  destruct (Z.even q); nia.
Qed.

(** Rounding a float that is within one half of an integer gives that
    integer. *)
Lemma int_np_round_within_half (x : float64) (d : Z) :
  within_half x d -> int_np_round x = inr d.
Proof.
  destruct x as [s|s| |s m e]; simpl; try contradiction.
  - intros ->. reflexivity.
  - destruct (Z.leb_spec 0 e) as [He|He]; intros Hx.
    + unfold ret. f_equal. exact Hx.
    + unfold ret. f_equal. apply round_half_even_near; [|exact Hx].
      apply Z.pow_pos_nonneg; lia.
Qed.

(** ** Arithmetic modulo 256 *)

Lemma wrap64_mod256 (x : Z) : wrap64 x mod 256 = x mod 256.
Proof.
  unfold wrap64.
  pose proof (Z.div_mod (x + 2 ^ 63) (2 ^ 64) ltac:(lia)) as H.
  replace ((x + 2 ^ 63) mod 2 ^ 64 - 2 ^ 63)
    with (x + (- ((x + 2 ^ 63) / 2 ^ 64) * 2 ^ 56) * 256) by lia.
  apply Z.mod_add. lia.
Qed.

Lemma mul_mod256 (a a' b b' : Z) :
  a mod 256 = a' mod 256 -> b mod 256 = b' mod 256 ->
  (a * b) mod 256 = (a' * b') mod 256.
Proof.
  intros Ha Hb. rewrite (Z.mul_mod a), (Z.mul_mod a') by lia.
  rewrite Ha, Hb. reflexivity.
Qed.

Lemma sum_upto_mod256 (n : nat) (f g : nat -> Z) :
  (forall k, (k < n)%nat -> f k mod 256 = g k mod 256) ->
  sum_upto n f mod 256 = sum_upto n g mod 256.
Proof.
  induction n as [|n IH]; intros H; [reflexivity|].
  rewrite !sum_upto_S.
  rewrite (Z.add_mod (sum_upto n f)), (Z.add_mod (sum_upto n g)) by lia.
  rewrite IH, (H n) by (intros; try apply H; lia). reflexivity.
Qed.

Lemma sum_upto_scale (n : nat) (c : Z) (f : nat -> Z) :
  sum_upto n (fun k => c * f k) = c * sum_upto n f.
Proof.
  induction n as [|n IH]; [unfold sum_upto; simpl; lia|].
  rewrite !sum_upto_S, IH. lia.
Qed.

(** ** Shapes *)

Lemma length_delete {A : Type} (i : nat) (l : list A) :
  (i < length l)%nat -> length (delete i l) = (length l - 1)%nat.
Proof.
  revert i; induction l as [|x t IH]; intros i Hi; simpl in *; [lia|].
  destruct i as [|i']; [lia|]. simpl. rewrite IH by lia. lia.
Qed.

Lemma length_minor (M : zmatrix) (i j : nat) :
  (i < length M)%nat -> length (minor M i j) = (length M - 1)%nat.
Proof.
  intros Hi. unfold minor. rewrite length_map. apply length_delete. exact Hi.
Qed.

Lemma det_minor (M : zmatrix) (i j : nat) :
  (i < length M)%nat -> det (minor M i j) = det_n (length M - 1) (minor M i j).
Proof.
  intros Hi. unfold det. rewrite length_minor by exact Hi. reflexivity.
Qed.

Lemma entry_map_map (f : Z -> Z) (M : zmatrix) (i j : nat) :
  (i < length M)%nat -> (j < length (nth i M []))%nat ->
  entry (map (map f) M) i j = f (entry M i j).
Proof.
  intros Hi Hj. unfold entry.
  rewrite (nth_indep _ [] (map f [])) by (rewrite length_map; exact Hi).
  rewrite (map_nth (map f)).
  rewrite (nth_indep _ 0 (f 0)) by (rewrite length_map; exact Hj).
  apply map_nth.
Qed.

Lemma nth_map_seq {A : Type} (f : nat -> A) (n i : nat) (d : A) :
  (i < n)%nat -> nth i (map f (seq 0 n)) d = f i.
Proof.
  intros Hi. rewrite (nth_indep _ d (f 0%nat)) by (rewrite length_map, length_seq; exact Hi).
  rewrite map_nth, seq_nth by exact Hi. reflexivity.
Qed.

Lemma is_square_row (M : zmatrix) (i : nat) :
  is_square M = true -> (i < length M)%nat -> length (nth i M []) = length M.
Proof.
  unfold is_square. rewrite forallb_forall. intros H Hi.
  apply Nat.eqb_eq, H, nth_In, Hi.
Qed.

(** ** The adjugate computed by matrix_inverse_mod *)

Lemma adjugate_cofactor_entry (np : Numpy) (M : zmatrix) (m : Z) (i k : nat) :
  (i < length M)%nat -> (k < length M)%nat ->
  entry (adjugate_cofactor np M m) i k = cofactor_mod np M m k i.
Proof.
  intros Hi Hk. unfold entry, adjugate_cofactor.
  rewrite (nth_map_seq
             (fun r => map (fun c => cofactor_mod np M m c r) (seq 0 (length M))))
    by exact Hi.
  apply (nth_map_seq (fun c => cofactor_mod np M m c i)). exact Hk.
Qed.

Lemma cofactor_mod_accurate (np : Numpy) (M : zmatrix) (m : Z) (k i : nat) :
  (k < length M)%nat -> det_accurate np (minor M k i) ->
  cofactor_mod np M m k i
  = (sign (k + i) * det_n (length M - 1) (minor M k i)) mod m.
Proof.
  intros Hk Hacc. unfold cofactor_mod.
  rewrite (int_np_round_within_half _ _ Hacc), det_minor by exact Hk.
  reflexivity.
Qed.

Lemma adjugate_2x2_entry (M : zmatrix) (i k : nat) :
  (i < 2)%nat -> (k < 2)%nat ->
  entry (adjugate_2x2 M) i k mod 256
  = (sign (k + i) * det_n 1 (minor M k i)) mod 256.
Proof.
  intros Hi Hk.
  assert (Hdet : forall r c, det_n 1 (minor M r c) = entry M (skip r 0) (skip c 0)).
  { intros r c. unfold det_n, sum_upto. cbn [seq map sumZ fold_right].
    rewrite entry_minor. unfold sign. cbn [Nat.even]. lia. }
  rewrite Hdet.
  destruct i as [|[|i]]; [| |lia]; (destruct k as [|[|k]]; [| |lia]);
    unfold adjugate_2x2, entry, skip, sign; simpl nth; simpl Nat.even;
    simpl Nat.ltb; cbv iota; rewrite ?wrap64_mod256;
    f_equal; lia.
Qed.

Lemma adjugate_2x2_shape (M : zmatrix) :
  length (adjugate_2x2 M) = 2%nat /\ is_square (adjugate_2x2 M) = true.
Proof. split; reflexivity. Qed.

Lemma adjugate_cofactor_shape (np : Numpy) (M : zmatrix) (m : Z) :
  length (adjugate_cofactor np M m) = length M
  /\ is_square (adjugate_cofactor np M m) = true.
Proof.
  unfold adjugate_cofactor, is_square. split.
  - rewrite length_map, length_seq. reflexivity.
  - apply forallb_forall. intros row Hrow.
    apply in_map_iff in Hrow. destruct Hrow as [r [<- _]].
    rewrite !length_map, !length_seq. apply Nat.eqb_refl.
Qed.

Lemma is_square_map_map (f : Z -> Z) (M : zmatrix) :
  is_square M = true -> is_square (map (map f) M) = true.
Proof.
  unfold is_square. rewrite !forallb_forall. intros H row Hrow.
  apply in_map_iff in Hrow. destruct Hrow as [r [<- Hr]].
  rewrite !length_map. apply H, Hr.
Qed.

Lemma entries_between_map_mod (f : Z -> Z) (M : zmatrix) :
  entries_between 0 256 (map (map (fun a => f a mod 256)) M).
Proof.
  unfold entries_between. apply Forall_map, Forall_forall. intros row _.
  apply Forall_map, Forall_forall. intros a _.
  apply Z.mod_pos_bound. lia.
Qed.

(** The determinant the engine uses is the exact one when the float is
    accurate. *)
Lemma rounded_det_accurate (np : Numpy) (M : zmatrix) :
  is_square M = true -> det_accurate np M -> rounded_det np M = inr (det M).
Proof.
  intros Hsq Hacc. unfold rounded_det, np_linalg_det. rewrite Hsq. simpl.
  apply int_np_round_within_half, Hacc.
Qed.

(** What matrix_inverse_mod returns on a unit determinant, given accurate
    float determinants: a square matrix of residues that inverts the key
    modulo 256. *)
Lemma matrix_inverse_mod_correct (np : Numpy) (K : zmatrix) :
  is_square K = true ->
  det_accurate np K ->
  (length K <> 2%nat -> minors_accurate np K) ->
  Z.gcd (det K mod 256) 256 = 1 ->
  exists Kinv,
    matrix_inverse_mod np K 256 = inr Kinv
    /\ length Kinv = length K
    /\ is_square Kinv = true
    /\ entries_between 0 256 Kinv
    /\ inverse_mod (length K) 256 Kinv K.
Proof.
  intros Hsq Hacc Hmin Hgcd.
  unfold matrix_inverse_mod.
  rewrite (rounded_det_accurate np K Hsq Hacc). simpl.
  destruct (mod_inverse_unit (det K mod 256) 256) as [dinv [Hinv [Hrange Hunit]]];
    [apply Z.mod_pos_bound; lia | lia | exact Hgcd |].
  rewrite Hinv. simpl.
  set (adj := if (length K =? 2)%nat then adjugate_2x2 K
              else adjugate_cofactor np K 256).
  assert (Hshape : length adj = length K /\ is_square adj = true).
  { unfold adj. destruct (Nat.eqb_spec (length K) 2) as [E|E].
    - rewrite E. apply adjugate_2x2_shape.
    - apply adjugate_cofactor_shape. }
  destruct Hshape as [Hlen Hsqadj].
  assert (Hadj : forall i k, (i < length K)%nat -> (k < length K)%nat ->
            entry adj i k mod 256
            = (sign (k + i) * det_n (length K - 1) (minor K k i)) mod 256).
  { intros i k Hi Hk. unfold adj.
    destruct (Nat.eqb_spec (length K) 2) as [E|E].
    - rewrite E in *. apply adjugate_2x2_entry; assumption.
    - rewrite adjugate_cofactor_entry by assumption.
      rewrite cofactor_mod_accurate by (try apply Hmin; assumption).
      apply Z.mod_mod. lia. }
  eexists. split; [reflexivity|].
  split; [rewrite length_map; exact Hlen|].
  split; [apply is_square_map_map; exact Hsqadj|].
  split; [apply (entries_between_map_mod (fun a => wrap64 (dinv * a)))|].
  intros i j Hi Hj.
  rewrite (sum_upto_mod256 _ _
    (fun k => dinv * (sign (k + i) * det_n (length K - 1) (minor K k i)
                      * entry K k j))).
  - rewrite sum_upto_scale, cofactor_expansion by assumption.
    destruct (i =? j)%nat.
    + fold (det K). rewrite <- Z.mul_mod_idemp_r by lia. exact Hunit.
    + rewrite Z.mul_0_r. reflexivity.
  - intros k Hk.
    rewrite entry_map_map
      by (rewrite ?is_square_row; rewrite ?Hlen; assumption).
    rewrite Z.mul_assoc. apply mul_mod256; [|reflexivity].
    rewrite Z.mod_mod, wrap64_mod256 by lia.
    apply mul_mod256; [reflexivity|]. apply Hadj; assumption.
Qed.

(** ** Binary64 values *)

Lemma digits2_pos_bound (m : positive) : Z.pos m < 2 ^ Z.pos (digits2_pos m).
Proof.
  induction m as [p IH|p IH|]; simpl digits2_pos;
    rewrite ?Pos2Z.inj_succ, ?Z.pow_succ_r by lia; lia.
Qed.

(** The mantissa of a binary64 value has at most 53 bits. *)
Lemma binary64_mantissa (s : bool) (m : positive) (e : Z) :
  is_binary64 (S754_finite s m e) = true -> Z.pos m < 2 ^ 53.
Proof.
  unfold is_binary64, valid_binary, bounded, canonical_mantissa, fexp, emin.
  intros H. apply andb_prop in H. destruct H as [H _].
  apply Z.eqb_eq in H.
  pose proof (digits2_pos_bound m) as Hd.
  assert (Z.pos (digits2_pos m) <= 53) by lia.
  apply Z.lt_le_trans with (1 := Hd).
  apply Z.pow_le_mono_r; lia.
Qed.

Lemma round_half_even_bounds (num den : Z) :
  0 < den -> num / den <= round_half_even num den <= num / den + 1.
Proof.
  intros Hden. unfold round_half_even.
  destruct (2 * (num mod den) <? den); [lia|].
  destruct (den <? 2 * (num mod den)); [lia|].
  destruct (Z.even (num / den)); lia.
Qed.

(** No binary64 value rounds to [2^53 + 1]. *)
Lemma int_np_round_not_2p53_plus_1 (x : float64) :
  is_binary64 x = true -> int_np_round x <> inr (2 ^ 53 + 1).
Proof.
  intros Hx. destruct x as [s|s| |s m e]; simpl; try discriminate.
  pose proof (binary64_mantissa s m e Hx) as Hm.
  unfold ret. intros E. injection E as E.
  destruct (Z.leb_spec 0 e) as [He|He].
  - destruct (Z.eq_dec e 0) as [->|Hne].
    + destruct s; lia.
    + replace e with (Z.succ (e - 1)) in E by lia.
      rewrite Z.pow_succ_r in E by lia.
      destruct s; lia.
  - assert (Hk : 2 <= 2 ^ (- e)).
    { change 2 with (2 ^ 1) at 1. apply Z.pow_le_mono_r; lia. }
    pose proof (round_half_even_bounds (if s then Z.neg m else Z.pos m)
                  (2 ^ (- e)) ltac:(lia)) as [_ Hub].
    rewrite E in Hub.
    assert ((if s then Z.neg m else Z.pos m) / 2 ^ (- e) < 2 ^ 52).
    { apply Z.div_lt_upper_bound; [lia|]. destruct s; nia. }
    lia.
Qed.

(** A binary64 value of magnitude at least [2^54] is an integer multiple of
    four. *)
Lemma int_np_round_large (x : float64) (d : Z) :
  is_binary64 x = true -> within_half_relative x d -> 2 ^ 55 <= Z.abs d ->
  exists q, int_np_round x = inr (4 * q).
Proof.
  intros Hx Hrel Hd. destruct x as [s|s| |s m e]; try contradiction.
  - simpl in Hrel. lia.
  - pose proof (binary64_mantissa s m e Hx) as Hm.
    unfold within_half_relative in Hrel. unfold int_np_round.
    set (v := if s then Z.neg m else Z.pos m) in *.
    assert (Hv : Z.abs v < 2 ^ 53) by (unfold v; destruct s; lia).
    revert Hrel. destruct (Z.leb_spec 0 e) as [He|He]; intros Hrel.
    + assert (H2 : 2 <= e).
      { destruct (Z.le_gt_cases 2 e) as [?|Hlt]; [assumption|exfalso].
        assert (e = 0 \/ e = 1) as [E|E] by lia; subst e;
          [change (2 ^ 0) with 1 in Hrel | change (2 ^ 1) with 2 in Hrel]; lia. }
      exists (v * 2 ^ (e - 2)). unfold ret. f_equal.
      replace e with (2 + (e - 2)) at 1 by lia.
      rewrite Z.pow_add_r by lia. lia.
    + exfalso.
      assert (Hk : 0 < 2 ^ (- e)) by (apply Z.pow_pos_nonneg; lia).
      set (p := 2 ^ (- e)) in *.
      assert (Z.abs d * p <= 2 * Z.abs v).
      { pose proof (Z.abs_triangle (v - d * p) (- v)) as Ht.
        replace (v - d * p + - v) with (- (d * p)) in Ht by lia.
        rewrite !Z.abs_opp, Z.abs_mul, (Z.abs_eq p) in Ht by lia. lia. }
      nia.
Qed.

Lemma gcd_multiple_of_4 (q : Z) : Z.gcd ((4 * q) mod 256) 256 <> 1.
Proof.
  change 256 with (4 * 64). rewrite Z.mul_mod_distr_l by lia.
  rewrite Z.gcd_mul_mono_l_nonneg by lia. lia.
Qed.

(** * The claims *)

(** Entries of a literal matrix are in range. *)
Ltac entries_in_range :=
  unfold entries_between; cbn;
  repeat (first [apply Forall_nil | apply Forall_cons]); lia.

(** ** Determinant (C5) *)

(** C5, counterexample.  The exact determinant of [M_2p53] is [2^53 + 1].
    Whatever binary64 value np.linalg.det returns for it, the determinant
    the engine uses, [int(np.round(np.linalg.det(M)))], is another
    integer. *)
Lemma rounded_det_inexact :
  is_square M_2p53 = true
  /\ det M_2p53 = 2 ^ 53 + 1
  /\ forall np : Numpy,
       is_binary64 (linalg_det_float np M_2p53) = true ->
       rounded_det np M_2p53 <> inr (det M_2p53).
Proof.
  split; [reflexivity|]. split; [reflexivity|].
  intros np Hx. unfold rounded_det, np_linalg_det.
  change (is_square M_2p53) with true. cbn [bind ret].
  change (det M_2p53) with (2 ^ 53 + 1).
  apply int_np_round_not_2p53_plus_1, Hx.
Qed.

(** C5, amended.  The determinant the engine uses, in key generation and in
    modular inversion, is the rounding of NumPy's floating-point
    determinant.  For a square integer matrix whose floating-point
    determinant is within one half of the exact one, it equals the exact
    integer determinant, the one cofactor expansion gives (closed form
    [a*d - b*c] in dimension two), and key generation accepts or refuses the
    sample by that exact determinant. *)
Theorem rounded_det_exact_when_accurate (np : Numpy) (M : zmatrix) :
  is_square M = true ->
  det_accurate np M ->
  rounded_det np M = inr (det M)
  /\ (forall (self : HillCipher) (rest : list zmatrix),
        generate_random_key np self (M :: rest)
        = if Z.gcd (det M mod 256) 256 =? 1
          then Some (fst (fst (set_key_matrix np self M)), M)
          else generate_random_key np self rest)
  /\ (forall a b c d : Z, det [[a; b]; [c; d]] = a * d - b * c).
Proof.
  intros Hsq Hacc.
  pose proof (rounded_det_accurate np M Hsq Hacc) as Hdet.
  split; [exact Hdet|]. split.
  - intros self rest. cbn [generate_random_key]. rewrite Hdet.
    rewrite gcd_spec by (try apply Z.mod_pos_bound; lia). reflexivity.
  - intros a b c d. unfold det, det_n, sum_upto, minor, entry, sign.
    cbn [length seq map sumZ fold_right nth delete Nat.even]. lia.
Qed.

Lemma rounded_det_exact_when_accurate_witness :
  rounded_det correctly_rounded_numpy K_3x3 = inr (det K_3x3)
  /\ (forall (self : HillCipher) (rest : list zmatrix),
        generate_random_key correctly_rounded_numpy self (K_3x3 :: rest)
        = if Z.gcd (det K_3x3 mod 256) 256 =? 1
          then Some (fst (fst (set_key_matrix correctly_rounded_numpy self K_3x3)),
                     K_3x3)
          else generate_random_key correctly_rounded_numpy self rest)
  /\ (forall a b c d : Z, det [[a; b]; [c; d]] = a * d - b * c).
Proof.
  apply (rounded_det_exact_when_accurate correctly_rounded_numpy K_3x3).
  - reflexivity.
  - vm_compute. reflexivity.
Defined.

(** ** Modular matrix inversion (C3) *)

(** C3, counterexample.  [255] times the identity of dimension seven has
    entries in [0, 255] and determinant [255^7], a unit modulo 256.  A
    binary64 value that approximates this determinant with a relative error
    of at most one half has magnitude above [2^54], hence is a multiple of
    four: matrix_inverse_mod finds no modular inverse and raises, for every
    such floating-point determinant, the correctly rounded one included. *)
Lemma matrix_inverse_mod_fails_in_dimension_7 :
  is_square (scalar_255 7) = true
  /\ entries_between 0 256 (scalar_255 7)
  /\ Z.gcd (det (scalar_255 7) mod 256) 256 = 1
  /\ (forall np : Numpy,
        is_binary64 (linalg_det_float np (scalar_255 7)) = true ->
        within_half_relative (linalg_det_float np (scalar_255 7))
                             (det (scalar_255 7)) ->
        matrix_inverse_mod np (scalar_255 7) 256 = inl ValueError_no_inverse)
  /\ matrix_inverse_mod correctly_rounded_numpy (scalar_255 7) 256
     = inl ValueError_no_inverse.
Proof.
  split; [reflexivity|].
  split; [entries_in_range|].
  split; [vm_compute; reflexivity|].
  split; [|vm_compute; reflexivity].
  intros np Hx Hrel.
  assert (Hd : det (scalar_255 7) = 255 ^ 7) by (vm_compute; reflexivity).
  rewrite Hd in Hrel.
  destruct (int_np_round_large _ _ Hx Hrel ltac:(lia)) as [q Hq].
  unfold matrix_inverse_mod, rounded_det, np_linalg_det.
  change (is_square (scalar_255 7)) with true. cbn [bind ret].
  rewrite Hq. cbn [bind]. change (256 =? 0) with false. cbv iota.
  rewrite mod_inverse_no_unit;
    [reflexivity | apply Z.mod_pos_bound; lia | lia | apply gcd_multiple_of_4].
Qed.

(** C3, amended.  For every square integer matrix [K] with entries in
    [0, 255] and [gcd (det K mod 256) 256 = 1] whose floating-point
    determinant, and outside dimension two those of its minors, are within
    one half of the exact ones, matrix_inverse_mod returns a matrix with all
    entries in [0, 256) whose product with [K] is the identity modulo 256,
    entry by entry. *)
Theorem matrix_inverse_mod_inverts (np : Numpy) (K : zmatrix) :
  is_square K = true ->
  entries_between 0 256 K ->
  Z.gcd (det K mod 256) 256 = 1 ->
  det_accurate np K ->
  (length K <> 2%nat -> minors_accurate np K) ->
  exists Kinv : zmatrix,
    matrix_inverse_mod np K 256 = inr Kinv
    /\ entries_between 0 256 Kinv
    /\ inverse_mod (length K) 256 Kinv K.
Proof.
  intros Hsq _ Hgcd Hacc Hmin.
  destruct (matrix_inverse_mod_correct np K Hsq Hacc Hmin Hgcd)
    as [Kinv [Hret [_ [_ [Hent Hinv]]]]].
  exists Kinv. auto.
Qed.

Lemma matrix_inverse_mod_inverts_witness :
  exists Kinv : zmatrix,
    matrix_inverse_mod correctly_rounded_numpy K_3x3 256 = inr Kinv
    /\ entries_between 0 256 Kinv
    /\ inverse_mod (length K_3x3) 256 Kinv K_3x3.
Proof.
  apply (matrix_inverse_mod_inverts correctly_rounded_numpy K_3x3).
  - reflexivity.
  - entries_in_range.
  - reflexivity.
  - vm_compute. reflexivity.
  - intros _ i j Hi Hj.
    destruct i as [|[|[|i]]]; [| | |simpl in Hi; lia];
      (destruct j as [|[|[|j]]]; [| | |simpl in Hj; lia]);
      vm_compute; reflexivity.
Defined.

(** ** Padding (C7) *)

(** C7.  For every sequence [s] and block size [N >= 1], pad_data returns
    [s] followed by [(N - len s % N) % N] zeros: the length is
    [len s + (N - len s % N) % N], a multiple of [N]; the first [len s]
    elements are [s], the others are zero; nothing is removed. *)
Theorem pad_data_appends_zeros (self : HillCipher) (s : list Z) :
  1 <= block_size self ->
  let N := block_size self in
  let len := Z.of_nat (length s) in
  exists padded : list Z,
    pad_data self s = inr padded
    /\ padded = s ++ repeat 0 (Z.to_nat ((N - len mod N) mod N))
    /\ Z.of_nat (length padded) = len + (N - len mod N) mod N
    /\ firstn (length s) padded = s
    /\ Forall (fun x => x = 0) (skipn (length s) padded)
    /\ Z.of_nat (length padded) mod N = 0.
Proof.
  intros HN N len. unfold pad_data. fold N. fold len.
  destruct (Z.eqb_spec N 0) as [?|_]; [lia|].
  pose proof (Z.mod_pos_bound len N ltac:(lia)) as Hr.
  pose proof (Z.div_mod len N ltac:(lia)) as Hdm.
  assert (Hpad : 0 <= (N - len mod N) mod N) by (apply Z.mod_pos_bound; lia).
  exists (s ++ repeat 0 (Z.to_nat ((N - len mod N) mod N))).
  assert (Hlen : Z.of_nat (length (s ++ repeat 0 (Z.to_nat ((N - len mod N) mod N))))
                 = len + (N - len mod N) mod N).
  { rewrite length_app, repeat_length, Nat2Z.inj_add, Z2Nat.id by lia.
    reflexivity. }
  split.
  - destruct (Z.eqb_spec (len mod N) 0) as [E|E]; simpl.
    + rewrite E, Z.sub_0_r, Z.mod_same by lia. simpl. rewrite app_nil_r.
      reflexivity.
    + destruct (Z.ltb_spec (N - len mod N) 0); [lia|].
      rewrite (Z.mod_small (N - len mod N)) by lia. reflexivity.
  - split; [reflexivity|]. split; [exact Hlen|].
    split; [rewrite firstn_app, Nat.sub_diag, firstn_all; simpl; apply app_nil_r|].
    split.
    + rewrite skipn_app, Nat.sub_diag, skipn_all. simpl.
      apply Forall_forall. intros x Hx. apply repeat_spec in Hx. exact Hx.
    + rewrite Hlen.
      destruct (Z.eq_dec (len mod N) 0) as [E|E].
      * rewrite E, Z.sub_0_r, Z.mod_same, Z.add_0_r by lia. exact E.
      * rewrite (Z.mod_small (N - len mod N)) by lia.
        replace (len + (N - len mod N)) with ((len / N + 1) * N) by lia.
        apply Z.mod_mul. lia.
Qed.

(** The specification's example: five elements and block size two give six
    elements, the last one zero. *)
Lemma pad_data_appends_zeros_witness :
  let self := {| block_size := 2; key_matrix := None;
                 inverse_key_matrix := None |} in
  let s := [10; 20; 30; 40; 50] in
  let N := block_size self in
  let len := Z.of_nat (length s) in
  exists padded : list Z,
    pad_data self s = inr padded
    /\ padded = s ++ repeat 0 (Z.to_nat ((N - len mod N) mod N))
    /\ Z.of_nat (length padded) = len + (N - len mod N) mod N
    /\ firstn (length s) padded = s
    /\ Forall (fun x => x = 0) (skipn (length s) padded)
    /\ Z.of_nat (length padded) mod N = 0.
Proof.
  intros self s.
  apply (pad_data_appends_zeros self s). simpl. lia.
Defined.

(** ** Blocks (C2) *)

Lemma sum_upto_S_l (n : nat) (f : nat -> Z) :
  sum_upto (S n) f = f 0%nat + sum_upto n (fun k => f (S k)).
Proof.
  unfold sum_upto. cbn [seq map sumZ fold_right]. f_equal.
  rewrite <- seq_shift, map_map. reflexivity.
Qed.

Lemma sum_upto_add (n : nat) (f g : nat -> Z) :
  sum_upto n (fun k => f k + g k) = sum_upto n f + sum_upto n g.
Proof.
  induction n as [|n IH]; [reflexivity|]. rewrite !sum_upto_S, IH. lia.
Qed.

Lemma sum_upto_0 (n : nat) : sum_upto n (fun _ => 0) = 0.
Proof.
  induction n as [|n IH]; [reflexivity|]. rewrite sum_upto_S, IH. reflexivity.
Qed.

Lemma sum_upto_exchange (n m : nat) (F : nat -> nat -> Z) :
  sum_upto n (fun k => sum_upto m (fun j => F k j))
  = sum_upto m (fun j => sum_upto n (fun k => F k j)).
Proof.
  induction n as [|n IH].
  - symmetry. apply sum_upto_0.
  - rewrite sum_upto_S, IH, <- sum_upto_add.
    apply sum_upto_ext. intros j _. rewrite sum_upto_S. reflexivity.
Qed.

Lemma sum_upto_delta (n i : nat) (b : nat -> Z) :
  (i < n)%nat ->
  sum_upto n (fun j => (if (i =? j)%nat then 1 else 0) * b j) = b i.
Proof.
  induction n as [|n IH]; intros Hi; [lia|].
  rewrite sum_upto_S. destruct (Nat.eqb_spec i n) as [->|Hne].
  - rewrite (sum_upto_ext _ _ (fun _ => 0)), sum_upto_0; [lia|].
    intros k Hk. destruct (Nat.eqb_spec n k); lia.
  - rewrite IH by lia. lia.
Qed.

(** The dot product of np.dot, as an indexed sum. *)
Lemma dot_sum_upto (row v : list Z) :
  length row = length v ->
  sumZ (map (fun p => fst p * snd p) (combine row v))
  = sum_upto (length v) (fun j => nth j row 0 * nth j v 0).
Proof.
  revert v; induction row as [|x row IH]; intros [|y v] Hlen;
    try discriminate; [reflexivity|].
  cbn [combine map sumZ fold_right length]. rewrite sum_upto_S_l.
  cbn [nth fst snd]. f_equal. apply IH. simpl in Hlen. lia.
Qed.

Lemma ncols_square (A : zmatrix) : is_square A = true -> ncols A = length A.
Proof.
  intros Hsq. destruct A as [|row A]; [reflexivity|].
  apply (is_square_row (row :: A) 0 Hsq). simpl. lia.
Qed.

Lemma np_dot_square (A : zmatrix) (v : list Z) :
  is_square A = true -> length v = length A ->
  x <- np_dot A v ;; ret (map (fun x => astype_uint8 (x mod 256)) x)
  = inr (apply_mod256 A v).
Proof.
  intros Hsq Hlen. unfold np_dot. rewrite ncols_square, Hlen, Nat.eqb_refl by exact Hsq.
  unfold bind, ret. f_equal. unfold apply_mod256. rewrite map_map.
  apply map_ext_in. intros row Hrow. rewrite dot_sum_upto, Hlen; [reflexivity|].
  unfold is_square in Hsq. rewrite forallb_forall in Hsq.
  apply Hsq, Nat.eqb_eq in Hrow. lia.
Qed.

Lemma apply_mod256_length (A : zmatrix) (v : list Z) :
  length (apply_mod256 A v) = length A.
Proof. unfold apply_mod256. apply length_map. Qed.

Lemma apply_mod256_nth (A : zmatrix) (v : list Z) (i : nat) :
  (i < length A)%nat ->
  nth i (apply_mod256 A v) 0
  = sum_upto (length A) (fun j => entry A i j * nth j v 0) mod 256.
Proof.
  intros Hi. unfold apply_mod256.
  set (f := fun row : list Z => astype_uint8 _).
  rewrite (nth_indep _ 0 (f [])) by (rewrite length_map; exact Hi).
  rewrite map_nth. unfold f, astype_uint8, entry.
  rewrite Z.mod_mod, wrap64_mod256 by lia. reflexivity.
Qed.

(** Applying an inverse modulo 256 after the matrix gives the block back. *)
Lemma apply_mod256_inverse (K Kinv : zmatrix) (b : list Z) :
  length Kinv = length K -> length b = length K ->
  inverse_mod (length K) 256 Kinv K ->
  Forall (fun x => 0 <= x < 256) b ->
  apply_mod256 Kinv (apply_mod256 K b) = b.
Proof.
  intros HlenI Hlenb Hinv Hb.
  apply (nth_ext _ _ 0 0).
  - rewrite apply_mod256_length. lia.
  - intros i Hi. rewrite apply_mod256_length in Hi.
    rewrite apply_mod256_nth by exact Hi. rewrite HlenI.
    rewrite (sum_upto_mod256 _ _
      (fun k => sum_upto (length K)
                  (fun j => entry Kinv i k * entry K k j * nth j b 0))).
    + rewrite sum_upto_exchange.
      rewrite (sum_upto_mod256 _ _
        (fun j => (if (i =? j)%nat then 1 else 0) * nth j b 0)).
      * rewrite sum_upto_delta by lia. apply Z.mod_small.
        rewrite Forall_forall in Hb. apply Hb, nth_In. lia.
      * intros j Hj.
        rewrite (sum_upto_ext _ _
          (fun k => nth j b 0 * (entry Kinv i k * entry K k j)))
          by (intros; lia).
        rewrite sum_upto_scale, Z.mul_comm.
        apply mul_mod256; [|reflexivity].
        rewrite Hinv by lia. reflexivity.
    + intros k Hk. rewrite apply_mod256_nth by lia.
      rewrite Z.mul_mod_idemp_r by lia.
      rewrite <- sum_upto_scale. f_equal. apply sum_upto_ext. intros; lia.
Qed.

(** Encrypting and then decrypting one block with a key and an inverse of
    it modulo 256. *)
Lemma encrypt_then_decrypt_block
  (self : HillCipher) (K Kinv : zmatrix) (b : list Z) :
  key_matrix self = Some K ->
  inverse_key_matrix self = Some Kinv ->
  is_square K = true ->
  is_square Kinv = true ->
  length Kinv = length K ->
  inverse_mod (length K) 256 Kinv K ->
  length b = length K ->
  Forall (fun x => 0 <= x < 256) b ->
  encrypt_block self b = inr (apply_mod256 K b)
  /\ decrypt_block self (apply_mod256 K b) = inr b.
Proof.
  intros HK HKinv Hsq HsqI HlenI Hinv Hlenb Hb.
  unfold encrypt_block, decrypt_block.
  rewrite HK, HKinv. split.
  - apply np_dot_square; assumption.
  - rewrite np_dot_square
      by (try rewrite apply_mod256_length; try assumption; lia).
    f_equal. apply apply_mod256_inverse; assumption.
Qed.

(** C2.  With a square key matrix [K] of dimension [N] and a cached inverse
    [Kinv] whose product with [K] is the identity modulo 256, decrypt_block
    undoes encrypt_block on every block of [N] values in [0, 255]; in
    particular for [N] in 2, 3, 4. *)
Theorem decrypt_block_inverts_encrypt_block
  (self : HillCipher) (K Kinv : zmatrix) (b : list Z) :
  key_matrix self = Some K ->
  inverse_key_matrix self = Some Kinv ->
  is_square K = true ->
  is_square Kinv = true ->
  length Kinv = length K ->
  inverse_mod (length K) 256 Kinv K ->
  length b = length K ->
  Forall (fun x => 0 <= x < 256) b ->
  exists c : list Z,
    encrypt_block self b = inr c /\ decrypt_block self c = inr b.
Proof.
  intros HK HKinv Hsq HsqI HlenI Hinv Hlenb Hb.
  exists (apply_mod256 K b).
  apply (encrypt_then_decrypt_block self K Kinv b); assumption.
Qed.

Lemma K_3257_inverse_mod : inverse_mod 2 256 K_3257_inverse K_3257.
Proof.
  intros i j Hi Hj.
  destruct i as [|[|i]]; [| |lia]; (destruct j as [|[|j]]; [| |lia]);
    reflexivity.
Qed.

Lemma decrypt_block_inverts_encrypt_block_witness :
  exists c : list Z,
    encrypt_block cipher_3257 [10; 20] = inr c
    /\ decrypt_block cipher_3257 c = inr [10; 20].
Proof.
  apply (decrypt_block_inverts_encrypt_block
           cipher_3257 K_3257 K_3257_inverse [10; 20]).
  - reflexivity.
  - reflexivity.
  - reflexivity.
  - reflexivity.
  - reflexivity.
  - exact K_3257_inverse_mod.
  - reflexivity.
  - repeat (first [apply Forall_nil | apply Forall_cons]); lia.
Defined.

(** ** Setting a key (C4, C8) *)

Lemma set_key_matrix_failure (np : Numpy) (self : HillCipher) (M : zmatrix)
  (e : exn) :
  matrix_inverse_mod np M 256 = inl e ->
  set_key_matrix np self M
  = ({| block_size := block_size self;
        key_matrix := Some M;
        inverse_key_matrix := inverse_key_matrix self |}, false, Some e).
Proof. intros H. unfold set_key_matrix. rewrite H. reflexivity. Qed.

Lemma set_key_matrix_success (np : Numpy) (self : HillCipher) (M Minv : zmatrix) :
  matrix_inverse_mod np M 256 = inr Minv ->
  set_key_matrix np self M
  = ({| block_size := block_size self;
        key_matrix := Some M;
        inverse_key_matrix := Some Minv |}, true, None).
Proof. intros H. unfold set_key_matrix. rewrite H. reflexivity. Qed.

Lemma matrix_inverse_mod_not_square (np : Numpy) (M : zmatrix) :
  is_square M = false -> matrix_inverse_mod np M 256 = inl LinAlgError.
Proof.
  intros H. unfold matrix_inverse_mod, rounded_det, np_linalg_det.
  rewrite H. reflexivity.
Qed.

Lemma matrix_inverse_mod_not_finite (np : Numpy) (M : zmatrix) (e : exn) :
  rounded_det np M = inl e -> matrix_inverse_mod np M 256 = inl e.
Proof. intros H. unfold matrix_inverse_mod. rewrite H. reflexivity. Qed.

Lemma matrix_inverse_mod_no_unit (np : Numpy) (M : zmatrix) (d : Z) :
  rounded_det np M = inr d -> Z.gcd (d mod 256) 256 <> 1 ->
  matrix_inverse_mod np M 256 = inl ValueError_no_inverse.
Proof.
  intros H Hg. unfold matrix_inverse_mod. rewrite H. cbn [bind].
  change (256 =? 0) with false. cbv iota.
  rewrite mod_inverse_no_unit;
    [reflexivity | apply Z.mod_pos_bound; lia | lia | exact Hg].
Qed.

Lemma matrix_inverse_mod_unit (np : Numpy) (M : zmatrix) (d : Z) :
  rounded_det np M = inr d -> Z.gcd (d mod 256) 256 = 1 -> accepted_key np M.
Proof.
  intros H Hg. unfold accepted_key, matrix_inverse_mod. rewrite H. cbn [bind].
  change (256 =? 0) with false. cbv iota.
  destruct (mod_inverse_unit (d mod 256) 256) as [dinv [Hinv _]];
    [apply Z.mod_pos_bound; lia | lia | exact Hg |].
  rewrite Hinv. cbn [bind]. eexists. reflexivity.
Qed.

(** C4, the code at the failing input.  When set_key_matrix fails, it has
    already stored the refused matrix: the instance then holds the new
    matrix together with the inverse cached before the call. *)
Theorem set_key_matrix_failure_replaces_key
  (np : Numpy) (self : HillCipher) (M : zmatrix) :
  snd (fst (set_key_matrix np self M)) = false ->
  key_matrix (fst (fst (set_key_matrix np self M))) = Some M
  /\ inverse_key_matrix (fst (fst (set_key_matrix np self M)))
     = inverse_key_matrix self.
Proof.
  unfold set_key_matrix.
  destruct (matrix_inverse_mod np M 256) as [e|Minv]; simpl.
  - intros _. split; reflexivity.
  - discriminate.
Qed.

(** The failing input: the singular matrix after the example key. *)
Lemma set_key_matrix_failure_replaces_key_witness :
  set_key_matrix correctly_rounded_numpy cipher_3257 K_singular
  = ({| block_size := 2;
        key_matrix := Some K_singular;
        inverse_key_matrix := Some K_3257_inverse |},
     false, Some ValueError_no_inverse)
  /\ key_matrix (fst (fst (set_key_matrix correctly_rounded_numpy cipher_3257
                                          K_singular))) = Some K_singular
  /\ inverse_key_matrix
       (fst (fst (set_key_matrix correctly_rounded_numpy cipher_3257
                                 K_singular)))
     = inverse_key_matrix cipher_3257.
Proof.
  split; [vm_compute; reflexivity|].
  apply (set_key_matrix_failure_replaces_key correctly_rounded_numpy
           cipher_3257 K_singular).
  vm_compute. reflexivity.
Defined.

(** The same with an array that is not square, whatever NumPy computes. *)
Lemma set_key_matrix_keeps_stale_inverse (np : Numpy) :
  set_key_matrix np cipher_3257 M_2x3
  = ({| block_size := 2;
        key_matrix := Some M_2x3;
        inverse_key_matrix := Some K_3257_inverse |},
     false, Some LinAlgError).
Proof.
  apply (set_key_matrix_failure np cipher_3257 M_2x3).
  apply matrix_inverse_mod_not_square. reflexivity.
Qed.

(** C8, counterexample.  [M_2p60] is square with determinant [2^60 + 1], a
    unit modulo 256, so the claim has set_key_matrix succeed.  A binary64
    approximation of that determinant with a relative error of at most one
    half is a multiple of four, and set_key_matrix fails, for every such
    floating-point determinant, the correctly rounded one included. *)
Lemma set_key_matrix_refuses_unit_determinant :
  is_square M_2p60 = true
  /\ Z.gcd (det M_2p60 mod 256) 256 = 1
  /\ (forall (np : Numpy) (self : HillCipher),
        is_binary64 (linalg_det_float np M_2p60) = true ->
        within_half_relative (linalg_det_float np M_2p60) (det M_2p60) ->
        snd (fst (set_key_matrix np self M_2p60)) = false
        /\ snd (set_key_matrix np self M_2p60) = Some ValueError_no_inverse)
  /\ snd (fst (set_key_matrix correctly_rounded_numpy cipher_3257 M_2p60))
     = false.
Proof.
  split; [reflexivity|]. split; [reflexivity|].
  split; [|vm_compute; reflexivity].
  intros np self Hx Hrel.
  change (det M_2p60) with (2 ^ 60 + 1) in Hrel.
  destruct (int_np_round_large _ _ Hx Hrel ltac:(lia)) as [q Hq].
  assert (Hdet : rounded_det np M_2p60 = inr (4 * q)).
  { unfold rounded_det, np_linalg_det.
    change (is_square M_2p60) with true. exact Hq. }
  rewrite (set_key_matrix_failure np self M_2p60 ValueError_no_inverse).
  - split; reflexivity.
  - apply (matrix_inverse_mod_no_unit np M_2p60 (4 * q) Hdet).
    apply gcd_multiple_of_4.
Qed.

(** C8, amended.  set_key_matrix decides at the moment the key is set, by
    the determinant [d] the engine computes (the rounded floating-point
    determinant, which is the exact one when the float is within one half of
    it).  It returns [False] after printing the exception: LinAlgError when
    the matrix is not square, the exception of [int] when the float is not
    finite, the missing modular inverse when [gcd (d mod 256) 256 <> 1], as
    for [[2,4],[1,2]] with determinant 0.  Otherwise it returns [True] with
    the matrix and matrix_inverse_mod's result both cached. *)
Theorem set_key_matrix_outcome (np : Numpy) (self : HillCipher) (M : zmatrix) :
  (is_square M = false ->
     snd (fst (set_key_matrix np self M)) = false
     /\ snd (set_key_matrix np self M) = Some LinAlgError)
  /\ (forall e : exn, rounded_det np M = inl e ->
        snd (fst (set_key_matrix np self M)) = false
        /\ snd (set_key_matrix np self M) = Some e)
  /\ (forall d : Z, rounded_det np M = inr d -> Z.gcd (d mod 256) 256 <> 1 ->
        snd (fst (set_key_matrix np self M)) = false
        /\ snd (set_key_matrix np self M) = Some ValueError_no_inverse)
  /\ (forall d : Z, rounded_det np M = inr d -> Z.gcd (d mod 256) 256 = 1 ->
        exists Minv : zmatrix,
          matrix_inverse_mod np M 256 = inr Minv
          /\ set_key_matrix np self M
             = ({| block_size := block_size self;
                   key_matrix := Some M;
                   inverse_key_matrix := Some Minv |}, true, None))
  /\ (is_square M = true -> det_accurate np M ->
        rounded_det np M = inr (det M))
  /\ (det_accurate np K_singular ->
        snd (fst (set_key_matrix np self K_singular)) = false
        /\ snd (set_key_matrix np self K_singular) = Some ValueError_no_inverse).
Proof.
  split; [|split; [|split; [|split; [|split]]]].
  - intros Hsq.
    rewrite (set_key_matrix_failure np self M LinAlgError)
      by (apply matrix_inverse_mod_not_square; exact Hsq).
    split; reflexivity.
  - intros e He.
    rewrite (set_key_matrix_failure np self M e)
      by (apply matrix_inverse_mod_not_finite; exact He).
    split; reflexivity.
  - intros d Hd Hg.
    rewrite (set_key_matrix_failure np self M ValueError_no_inverse)
      by (apply (matrix_inverse_mod_no_unit np M d); assumption).
    split; reflexivity.
  - intros d Hd Hg.
    destruct (matrix_inverse_mod_unit np M d Hd Hg) as [Minv HMinv].
    exists Minv. split; [exact HMinv|].
    apply set_key_matrix_success. exact HMinv.
  - apply rounded_det_accurate.
  - intros Hacc.
    rewrite (set_key_matrix_failure np self K_singular ValueError_no_inverse).
    + split; reflexivity.
    + apply (matrix_inverse_mod_no_unit np K_singular (det K_singular)).
      * apply rounded_det_accurate; [reflexivity | exact Hacc].
      * vm_compute. discriminate.
Qed.

(** ** Key files (C9, C10) *)

(** C9.  A key accepted by set_key_matrix, saved with save_key and loaded
    with load_key into any instance, a fresh one in particular, is accepted
    again: load_key returns [True], and the loading instance holds the same
    matrix, the same block size and the same cached inverse. *)
Theorem load_key_restores_saved_key
  (np : Numpy) (self0 self other : HillCipher) (K : zmatrix) :
  set_key_matrix np self0 K = (self, true, None) ->
  exists file : key_data,
    save_key self = (true, Some file)
    /\ load_key np other (Some file) = (self, true)
    /\ key_matrix (fst (load_key np other (Some file))) = Some K
    /\ block_size (fst (load_key np other (Some file))) = block_size self.
Proof.
  unfold set_key_matrix.
  destruct (matrix_inverse_mod np K 256) as [e|Kinv] eqn:E; [discriminate|].
  intros H. injection H as <-.
  eexists. split; [reflexivity|].
  assert (Hload : load_key np other
                    (Some {| kd_key_matrix := Some K;
                             kd_block_size := Some (block_size self0) |})
                  = ({| block_size := block_size self0;
                        key_matrix := Some K;
                        inverse_key_matrix := Some Kinv |}, true)).
  { unfold load_key. cbn [kd_key_matrix kd_block_size].
    rewrite (set_key_matrix_success np _ K Kinv E). reflexivity. }
  cbn [block_size key_matrix].
  rewrite Hload. split; [reflexivity|]. split; reflexivity.
Qed.

Lemma load_key_restores_saved_key_witness :
  exists file : key_data,
    save_key cipher_3257 = (true, Some file)
    /\ load_key correctly_rounded_numpy
         (HillCipher_init correctly_rounded_numpy None 2) (Some file)
       = (cipher_3257, true)
    /\ key_matrix
         (fst (load_key correctly_rounded_numpy
                 (HillCipher_init correctly_rounded_numpy None 2) (Some file)))
       = Some K_3257
    /\ block_size
         (fst (load_key correctly_rounded_numpy
                 (HillCipher_init correctly_rounded_numpy None 2) (Some file)))
       = block_size cipher_3257.
Proof.
  apply (load_key_restores_saved_key correctly_rounded_numpy
           (HillCipher_init correctly_rounded_numpy None 2) cipher_3257
           (HillCipher_init correctly_rounded_numpy None 2) K_3257).
  vm_compute. reflexivity.
Defined.

(** C10.  A key record with a matrix the engine accepts and no block size:
    load_key returns [True] and the block size is 2, whatever it was before
    and whatever the dimension of the matrix. *)
Theorem load_key_default_block_size
  (np : Numpy) (self : HillCipher) (K : zmatrix) (file : key_data) :
  kd_key_matrix file = Some K ->
  kd_block_size file = None ->
  accepted_key np K ->
  snd (load_key np self (Some file)) = true
  /\ block_size (fst (load_key np self (Some file))) = 2
  /\ key_matrix (fst (load_key np self (Some file))) = Some K.
Proof.
  intros HK Hbs [Kinv HKinv]. unfold load_key. rewrite HK, Hbs.
  rewrite (set_key_matrix_success np _ K Kinv HKinv).
  repeat split; reflexivity.
Qed.

(** A three by three key loaded into an instance of block size three: the
    block size becomes two. *)
Lemma load_key_default_block_size_witness :
  let self := {| block_size := 3; key_matrix := None;
                 inverse_key_matrix := None |} in
  let file := {| kd_key_matrix := Some K_3x3; kd_block_size := None |} in
  snd (load_key correctly_rounded_numpy self (Some file)) = true
  /\ block_size (fst (load_key correctly_rounded_numpy self (Some file))) = 2
  /\ key_matrix (fst (load_key correctly_rounded_numpy self (Some file)))
     = Some K_3x3.
Proof.
  intros self file.
  apply (load_key_default_block_size correctly_rounded_numpy self K_3x3 file).
  - reflexivity.
  - reflexivity.
  - eexists. vm_compute. reflexivity.
Defined.

(** ** Images (C1, C6) *)

Lemma reassemble_channels_shape (channels : list (list Z)) (sh : list nat)
  (a : ndarray) :
  reassemble_channels channels sh = inr a -> shape a = sh.
Proof.
  unfold reassemble_channels.
  destruct (_ =? _)%nat; [|discriminate].
  intros H. injection H as <-. reflexivity.
Qed.

Lemma reassemble_flat_shape (out : list Z) (sh : list nat) (a : ndarray) :
  reassemble_flat out sh = inr a -> shape a = sh.
Proof.
  unfold reassemble_flat. destruct sh as [|h t]; [discriminate|].
  destruct (_ =? _)%nat; [|discriminate].
  intros H. injection H as <-. reflexivity.
Qed.

Lemma transform_array_shape (f : list Z -> result (list Z)) (self : HillCipher)
  (image_array : ndarray) (sh : list nat) (a : ndarray) :
  transform_array f self image_array sh = inr a -> shape a = sh.
Proof.
  unfold transform_array. destruct (length sh =? 3)%nat.
  - destruct (mapM _ _) as [e|channels]; [discriminate|].
    apply reassemble_channels_shape.
  - destruct (transform_channel _ _ _) as [e|out]; [discriminate|].
    apply reassemble_flat_shape.
Qed.

(** C1, the code at the failing input: the specification's padding example.
    One channel of five pixels under the key [[3,2],[5,7]] with block size
    two.  The fifth pixel is encrypted in the padded block [50, 0] and the
    second output of that block is cut off; decrypt_image pads the
    encrypted pixel with a zero instead and returns 142 where the image had
    50. *)
Theorem decrypt_image_changes_padded_pixel :
  set_key_matrix correctly_rounded_numpy
    (HillCipher_init correctly_rounded_numpy None 2) K_3257
  = (cipher_3257, true, None)
  /\ encrypt_image cipher_3257 image_1x5 = inr (cipher_1x5, metadata_1x5)
  /\ decrypt_image cipher_3257 cipher_1x5 (Some metadata_1x5)
     = inr {| mode := "L";
              pixels := {| shape := [1%nat; 5%nat];
                           data := [10; 20; 30; 40; 142] |} |}.
Proof.
  split; [vm_compute; reflexivity|].
  split; vm_compute; reflexivity.
Qed.

(** C6, counterexample.  Called without a metadata file, decrypt_image does
    not fail: it takes the shape and the mode of the encrypted image and
    returns an image. *)
Lemma decrypt_image_without_metadata :
  decrypt_image cipher_3257 cipher_1x5 None
  = inr {| mode := mode cipher_1x5;
           pixels := {| shape := shape (pixels cipher_1x5);
                        data := [10; 20; 30; 40; 142] |} |}.
Proof. vm_compute. reflexivity. Qed.

(** C6, amended.  When a metadata record is given, the image decrypt_image
    returns has the shape and the mode recorded there, whatever the shape
    and mode of the encrypted image, and nothing else of the record is
    used.  When none is given, decrypt_image proceeds with the shape and
    the mode of the encrypted image, exactly as if the record described
    that image; no error is particular to missing metadata. *)
Theorem decrypt_image_shape_and_mode (self : HillCipher) (img : image) :
  (forall (md : metadata) (out : image),
     decrypt_image self img (Some md) = inr out ->
     shape (pixels out) = original_shape md /\ mode out = image_mode md)
  /\ (forall md md' : metadata,
        original_shape md = original_shape md' ->
        image_mode md = image_mode md' ->
        decrypt_image self img (Some md) = decrypt_image self img (Some md'))
  /\ decrypt_image self img None
     = decrypt_image self img (Some (metadata_of_image self img))
  /\ (forall out : image,
        decrypt_image self img None = inr out ->
        shape (pixels out) = shape (pixels img) /\ mode out = mode img).
Proof.
  assert (H : forall sh md out,
            (arr <- transform_array (decrypt_block self) self (pixels img) sh ;;
             ret {| mode := md; pixels := arr |}) = inr out ->
            shape (pixels out) = sh /\ mode out = md).
  { intros sh md out.
    destruct (transform_array _ _ _ _) as [e|arr] eqn:E; [discriminate|].
    cbn [bind ret]. intros Hout. injection Hout as <-.
    split; [exact (transform_array_shape _ _ _ _ _ E) | reflexivity]. }
  split; [|split; [|split]].
  - intros md out. unfold decrypt_image. apply H.
  - intros md md' Hs Hm. unfold decrypt_image. rewrite Hs, Hm. reflexivity.
  - reflexivity.
  - intros out. unfold decrypt_image. apply H.
Qed.

(** ** Whole channels *)

Lemma mapM_map {A B : Type} (f : A -> result B) (g : A -> B) (l : list A) :
  (forall x, In x l -> f x = inr (g x)) -> mapM f l = inr (map g l).
Proof.
  induction l as [|a t IH]; intros H; [reflexivity|].
  cbn [mapM map]. rewrite (H a) by (left; reflexivity).
  cbn [bind]. rewrite IH by (intros x Hx; apply H; right; exact Hx).
  reflexivity.
Qed.

Lemma length_concat_uniform {A : Type} (n : nat) (bs : list (list A)) :
  Forall (fun b => length b = n) bs ->
  length (concat bs) = (length bs * n)%nat.
Proof.
  induction 1 as [|b bs Hb _ IH]; [reflexivity|].
  cbn [concat length]. rewrite length_app, IH, Hb. lia.
Qed.

(** Cutting a concatenation of blocks of [n] elements gives the blocks. *)
Lemma blocks_from_concat (n : nat) (bs : list (list Z)) : forall fuel : nat,
  (0 < n)%nat ->
  Forall (fun b => length b = n) bs ->
  (length (concat bs) <= fuel)%nat ->
  blocks_from fuel n (concat bs) = bs.
Proof.
  induction bs as [|b bs IH]; intros fuel Hn Hbs Hfuel.
  - destruct fuel; reflexivity.
  - inversion Hbs as [|? ? Hb Hbs']; subst.
    cbn [concat] in *. rewrite length_app in Hfuel.
    destruct fuel as [|fuel]; [lia|].
    destruct b as [|x b]; [simpl in Hn; lia|].
    cbn [blocks_from app].
    change (x :: b ++ concat bs) with ((x :: b) ++ concat bs).
    rewrite firstn_app, skipn_app, Nat.sub_diag, firstn_all, skipn_all.
    cbn [firstn skipn app]. rewrite app_nil_r. f_equal.
    apply IH; [lia | assumption | simpl in Hfuel; lia].
Qed.

(** A list whose length is a multiple of [n] is a concatenation of blocks
    of [n] elements. *)
Lemma aligned_blocks (n q : nat) : forall d : list Z,
  length d = (q * n)%nat ->
  exists bs : list (list Z),
    d = concat bs /\ Forall (fun b => length b = n) bs.
Proof.
  induction q as [|q IH]; intros d Hd.
  - exists []. destruct d; [split; [reflexivity | constructor] | discriminate].
  - destruct (IH (skipn n d)) as [bs [Hcat Hbs]].
    { rewrite length_skipn. lia. }
    exists (firstn n d :: bs). split.
    + cbn [concat]. rewrite <- Hcat. symmetry. apply firstn_skipn.
    + constructor; [|exact Hbs]. rewrite length_firstn. lia.
Qed.

Lemma pad_data_aligned (self : HillCipher) (d : list Z) (n q : nat) :
  block_size self = Z.of_nat n -> (0 < n)%nat -> length d = (q * n)%nat ->
  pad_data self d = inr d.
Proof.
  intros Hbs Hn Hd. unfold pad_data. rewrite Hbs.
  destruct (Z.eqb_spec (Z.of_nat n) 0) as [?|_]; [lia|].
  rewrite Hd, Nat2Z.inj_mul, Z.mod_mul by lia. reflexivity.
Qed.

Lemma transform_channel_aligned (f : list Z -> result (list Z))
  (self : HillCipher) (A : zmatrix) (d : list Z) (q : nat) :
  block_size self = Z.of_nat (length A) -> (0 < length A)%nat ->
  length d = (q * length A)%nat ->
  (forall b, length b = length A -> f b = inr (apply_mod256 A b)) ->
  transform_channel f self d = inr (apply_blocks A d).
Proof.
  intros Hbs Hn Hd Hf. unfold transform_channel.
  rewrite (pad_data_aligned self d (length A) q) by assumption.
  cbn [bind]. unfold blocks. rewrite Hbs.
  destruct (Z.leb_spec (Z.of_nat (length A)) 0) as [?|_]; [lia|].
  rewrite Nat2Z.id.
  destruct (aligned_blocks (length A) q d Hd) as [bs [Hcat Hlen]].
  assert (Hblocks : blocks_from (length d) (length A) d = bs).
  { rewrite Hcat. apply blocks_from_concat; [assumption..|lia]. }
  unfold apply_blocks. rewrite Hblocks.
  rewrite (mapM_map f (apply_mod256 A)).
  - reflexivity.
  - intros b Hb. apply Hf. rewrite Forall_forall in Hlen. apply Hlen, Hb.
Qed.

Lemma apply_blocks_length (A : zmatrix) (d : list Z) (q : nat) :
  (0 < length A)%nat -> length d = (q * length A)%nat ->
  length (apply_blocks A d) = length d.
Proof.
  intros Hn Hd. unfold apply_blocks.
  destruct (aligned_blocks (length A) q d Hd) as [bs [Hcat Hlen]].
  subst d. rewrite blocks_from_concat by (try assumption; lia).
  rewrite (length_concat_uniform (length A)), (length_concat_uniform (length A)).
  - rewrite length_map. reflexivity.
  - exact Hlen.
  - apply Forall_map, Forall_forall. intros b _. apply apply_mod256_length.
Qed.

(** Applying the inverse block by block undoes the matrix block by block. *)
Lemma apply_blocks_inverse (K Kinv : zmatrix) (d : list Z) (q : nat) :
  (0 < length K)%nat -> length Kinv = length K ->
  inverse_mod (length K) 256 Kinv K ->
  length d = (q * length K)%nat ->
  Forall (fun x => 0 <= x < 256) d ->
  apply_blocks Kinv (apply_blocks K d) = d.
Proof.
  intros Hn HlenI Hinv Hd Hbytes.
  destruct (aligned_blocks (length K) q d Hd) as [bs [Hcat Hlen]].
  subst d.
  assert (HE : apply_blocks K (concat bs) = concat (map (apply_mod256 K) bs)).
  { unfold apply_blocks.
    rewrite blocks_from_concat by (try assumption; lia). reflexivity. }
  assert (HlenE : Forall (fun b => length b = length Kinv)
                         (map (apply_mod256 K) bs)).
  { apply Forall_map, Forall_forall. intros b _.
    rewrite apply_mod256_length. lia. }
  rewrite HE. unfold apply_blocks.
  rewrite blocks_from_concat by (try assumption; lia).
  rewrite map_map. f_equal.
  rewrite <- (map_id bs) at 2. apply map_ext_in. intros b Hb.
  apply apply_mod256_inverse; try assumption.
  - rewrite Forall_forall in Hlen. apply Hlen, Hb.
  - rewrite Forall_forall in *.
    intros x Hx. apply Hbytes, in_concat. exists b. split; assumption.
Qed.

(** ** Channels of an image array *)

Lemma map_nth_seq_firstn (c : nat) : forall d : list Z,
  (c <= length d)%nat -> map (fun k => nth k d 0) (seq 0 c) = firstn c d.
Proof.
  induction c as [|c IH]; intros d Hc; [reflexivity|].
  destruct d as [|x d]; [simpl in Hc; lia|].
  cbn [seq map firstn nth]. f_equal.
  rewrite <- seq_shift, map_map. cbn [nth]. apply IH. simpl in Hc. lia.
Qed.

Lemma map_nth_seq (l : list Z) :
  map (fun i => nth i l 0) (seq 0 (length l)) = l.
Proof. rewrite map_nth_seq_firstn by lia. apply firstn_all. Qed.

Lemma map_nth_seq_lists (l : list (list Z)) :
  map (fun k => nth k l []) (seq 0 (length l)) = l.
Proof.
  apply (nth_ext _ _ [] []).
  - rewrite length_map, length_seq. reflexivity.
  - intros k Hk. rewrite length_map, length_seq in Hk.
    apply (nth_map_seq (fun k => nth k l [])). exact Hk.
Qed.

Lemma nth_concat_uniform (c : nat) (rows : list (list Z)) : forall i k : nat,
  Forall (fun r => length r = c) rows ->
  (i < length rows)%nat -> (k < c)%nat ->
  nth (i * c + k) (concat rows) 0 = nth k (nth i rows []) 0.
Proof.
  induction rows as [|r rows IH]; intros i k Hrows Hi Hk;
    [simpl in Hi; lia|].
  inversion Hrows as [|? ? Hr Hrows']; subst.
  cbn [concat]. destruct i as [|i].
  - cbn [nth Nat.mul Nat.add]. apply app_nth1. lia.
  - rewrite app_nth2 by lia.
    replace (S i * length r + k - length r)%nat with (i * length r + k)%nat by lia.
    cbn [nth]. apply IH; [assumption | simpl in Hi; lia | assumption].
Qed.

(** Reading an array pixel by pixel, sample by sample, gives its data. *)
Lemma concat_rows (c m : nat) : forall d : list Z,
  length d = (m * c)%nat ->
  concat (map (fun i => map (fun k => nth (i * c + k) d 0) (seq 0 c)) (seq 0 m))
  = d.
Proof.
  induction m as [|m IH]; intros d Hd.
  - destruct d; [reflexivity | discriminate].
  - cbn [seq map concat]. rewrite <- seq_shift, map_map.
    transitivity (firstn c d ++ skipn c d); [|apply firstn_skipn]. f_equal.
    + cbn [Nat.mul Nat.add]. apply map_nth_seq_firstn. lia.
    + rewrite <- (IH (skipn c d)) by (rewrite length_skipn; lia).
      f_equal. apply map_ext. intros i. apply map_ext. intros k.
      rewrite nth_skipn. f_equal. lia.
Qed.

Lemma interleave_deinterleave (c m : nat) (d : list Z) :
  length d = (m * c)%nat -> interleave m (deinterleave c m d) = d.
Proof.
  intros Hd. unfold interleave, deinterleave.
  transitivity
    (concat (map (fun i => map (fun k => nth (i * c + k) d 0) (seq 0 c))
                 (seq 0 m)));
    [|apply concat_rows; exact Hd].
  f_equal.
  apply map_ext_in. intros i Hi. apply in_seq in Hi.
  rewrite map_map. apply map_ext. intros k.
  apply (nth_map_seq (fun i => nth (i * c + k) d 0)). lia.
Qed.

Lemma deinterleave_interleave (m : nat) (channels : list (list Z)) :
  Forall (fun ch => length ch = m) channels ->
  deinterleave (length channels) m (interleave m channels) = channels.
Proof.
  intros Hlen. unfold deinterleave.
  transitivity (map (fun k => nth k channels []) (seq 0 (length channels)));
    [|apply map_nth_seq_lists].
  apply map_ext_in. intros k Hk. apply in_seq in Hk.
  assert (Hm : length (nth k channels []) = m).
  { rewrite Forall_forall in Hlen. apply Hlen, nth_In. lia. }
  transitivity (map (fun i => nth i (nth k channels []) 0) (seq 0 m));
    [|rewrite <- Hm; apply map_nth_seq].
  apply map_ext_in. intros i Hi. apply in_seq in Hi.
  unfold interleave. rewrite nth_concat_uniform.
  - rewrite (nth_map_seq (fun i => map (fun ch => nth i ch 0) channels)) by lia.
    rewrite (nth_indep _ 0 ((fun ch : list Z => nth i ch 0) []))
      by (rewrite length_map; lia).
    apply (map_nth (fun ch : list Z => nth i ch 0)).
  - apply Forall_map, Forall_forall. intros j _. apply length_map.
  - rewrite length_map, length_seq. lia.
  - lia.
Qed.

Lemma interleave_length (m : nat) (channels : list (list Z)) :
  length (interleave m channels) = (m * length channels)%nat.
Proof.
  unfold interleave. rewrite (length_concat_uniform (length channels)).
  - rewrite length_map, length_seq. reflexivity.
  - apply Forall_map, Forall_forall. intros i _. apply length_map.
Qed.

(** ** Whole images *)

Lemma interleave_nil (m : nat) : interleave m [] = [].
Proof.
  unfold interleave. cbn [map]. induction (seq 0 m) as [|i l IH];
    [reflexivity | exact IH].
Qed.

Lemma deinterleave_length (c m : nat) (d : list Z) :
  length (deinterleave c m d) = c
  /\ Forall (fun ch => length ch = m) (deinterleave c m d).
Proof.
  unfold deinterleave. split.
  - rewrite length_map, length_seq. reflexivity.
  - apply Forall_map, Forall_forall. intros k _.
    rewrite length_map, length_seq. reflexivity.
Qed.

Lemma apply_array_shape (A : zmatrix) (a : ndarray) :
  shape (apply_array A a) = shape a.
Proof.
  unfold apply_array. destruct (shape a) as [|h [|w [|c [|x t]]]]; reflexivity.
Qed.

(** The color branch of transform_array on aligned channels. *)
Lemma transform_array_channels (f : list Z -> result (list Z))
  (self : HillCipher) (A : zmatrix) (a : ndarray) (h w c q : nat) :
  block_size self = Z.of_nat (length A) -> (0 < length A)%nat ->
  (forall b, length b = length A -> f b = inr (apply_mod256 A b)) ->
  shape a = [h; w; c] ->
  (h * w = q * length A)%nat ->
  transform_array f self a [h; w; c]
  = inr {| shape := [h; w; c];
           data := interleave (h * w)
                     (map (apply_blocks A) (deinterleave c (h * w) (data a))) |}.
Proof.
  intros Hbs Hn Hf Hshape Hq. unfold transform_array.
  cbn [length Nat.eqb nth].
  rewrite (mapM_map _
    (fun k => apply_blocks A (map (fun i => nth (i * c + k) (data a) 0)
                                  (seq 0 (h * w))))).
  2:{ intros k Hk. apply in_seq in Hk. unfold channel_data. rewrite Hshape.
      destruct (Nat.ltb_spec k c) as [_|?]; [|lia]. cbn [bind ret].
      apply (transform_channel_aligned f self A _ q); try assumption.
      rewrite length_map, length_seq. exact Hq. }
  cbn [bind].
  replace (map _ (seq 0 c))
    with (map (apply_blocks A) (deinterleave c (h * w) (data a)))
    by (unfold deinterleave; rewrite map_map; reflexivity).
  set (channels := map (apply_blocks A) (deinterleave c (h * w) (data a))).
  assert (Hc : length channels = c).
  { unfold channels. rewrite length_map. apply deinterleave_length. }
  assert (Hm : Forall (fun ch => length ch = (h * w)%nat) channels).
  { unfold channels, deinterleave. rewrite map_map.
    apply Forall_map, Forall_forall. intros k _.
    rewrite (apply_blocks_length A _ q); rewrite ?length_map, ?length_seq;
      try assumption; reflexivity. }
  unfold reassemble_channels.
  assert (Hflat : concat (map (fun k => map (fun ch => nth k ch 0) channels)
                              (seq 0 (Nat.min (prod (firstn 2 [h; w; c]))
                                              (length (hd [] channels)))))
                  = interleave (h * w) channels).
  { destruct channels as [|ch channels'] eqn:E.
    - cbn [hd length]. rewrite Nat.min_0_r, interleave_nil. reflexivity.
    - inversion Hm as [|? ? Hch _]; subst. cbn [hd firstn prod fold_right].
      rewrite Hch, Nat.mul_1_r, Nat.min_id. reflexivity. }
  rewrite Hflat, interleave_length, Hc.
  replace (h * w * c =? prod [h; w; c])%nat with true; [reflexivity|].
  symmetry. apply Nat.eqb_eq. cbn [prod fold_right]. lia.
Qed.

(** The other branch of transform_array on aligned data. *)
Lemma transform_array_flat (f : list Z -> result (list Z))
  (self : HillCipher) (A : zmatrix) (a : ndarray) (q : nat) :
  block_size self = Z.of_nat (length A) -> (0 < length A)%nat ->
  (forall b, length b = length A -> f b = inr (apply_mod256 A b)) ->
  length (shape a) <> 3%nat -> shape a <> [] ->
  length (data a) = prod (shape a) ->
  (prod (shape a) = q * length A)%nat ->
  transform_array f self a (shape a)
  = inr {| shape := shape a; data := apply_blocks A (data a) |}.
Proof.
  intros Hbs Hn Hf H3 Hne Hlen Hq. unfold transform_array.
  destruct (Nat.eqb_spec (length (shape a)) 3) as [?|_]; [contradiction|].
  rewrite (transform_channel_aligned f self A _ q) by (try assumption; lia).
  cbn [bind]. unfold reassemble_flat.
  destruct (shape a) as [|d0 sh] eqn:E; [contradiction|].
  rewrite firstn_all2 by (rewrite (apply_blocks_length A _ q); lia).
  rewrite (apply_blocks_length A _ q), Hlen, Nat.eqb_refl by (try assumption; lia).
  reflexivity.
Qed.

(** transform_array on an array whose channels are aligned. *)
Lemma transform_array_aligned (f : list Z -> result (list Z))
  (self : HillCipher) (A : zmatrix) (a : ndarray) (q : nat) :
  block_size self = Z.of_nat (length A) -> (0 < length A)%nat ->
  (forall b, length b = length A -> f b = inr (apply_mod256 A b)) ->
  shape a <> [] ->
  length (data a) = prod (shape a) ->
  (channel_length (shape a) = q * length A)%nat ->
  transform_array f self a (shape a) = inr (apply_array A a).
Proof.
  intros Hbs Hn Hf Hne Hlen Hq. unfold apply_array.
  destruct (shape a) as [|h [|w [|c [|x t]]]] eqn:E;
    try contradiction;
    try (rewrite <- E; apply (transform_array_flat f self A a q);
         rewrite ?E; try assumption; cbn [length]; try lia; discriminate).
  apply (transform_array_channels f self A a h w c q); assumption.
Qed.

Lemma deinterleave_bytes (c m : nat) (d : list Z) :
  length d = (m * c)%nat ->
  Forall (fun x => 0 <= x < 256) d ->
  Forall (Forall (fun x => 0 <= x < 256)) (deinterleave c m d).
Proof.
  intros Hd Hb. unfold deinterleave.
  apply Forall_map, Forall_forall. intros k Hk. apply in_seq in Hk.
  apply Forall_map, Forall_forall. intros i Hi. apply in_seq in Hi.
  rewrite Forall_forall in Hb. apply Hb, nth_In. nia.
Qed.

(** Decrypting the channels of the encrypted array gives the array back. *)
Lemma apply_array_inverse (K Kinv : zmatrix) (a : ndarray) (q : nat) :
  (0 < length K)%nat -> length Kinv = length K ->
  inverse_mod (length K) 256 Kinv K ->
  well_formed a ->
  (channel_length (shape a) = q * length K)%nat ->
  apply_array Kinv (apply_array K a) = a.
Proof.
  intros Hn HlenI Hinv [Hlen Hbytes] Hq.
  destruct a as [sh d]. cbn [shape data] in *.
  assert (Hflat : forall sh',
            prod sh' = (q * length K)%nat -> length d = prod sh' ->
            {| shape := sh'; data := apply_blocks Kinv (apply_blocks K d) |}
            = {| shape := sh'; data := d |}).
  { intros sh' Hq' Hlen'. f_equal.
    apply (apply_blocks_inverse K Kinv d q); try assumption. lia. }
  unfold apply_array. cbn [shape data].
  destruct sh as [|h [|w [|c [|x t]]]]; cbn [shape data];
    try (apply Hflat; assumption).
  cbn [channel_length] in Hq. cbn [prod fold_right] in Hlen.
  assert (Hd : length d = (h * w * c)%nat) by lia.
  f_equal.
  set (channels := deinterleave c (h * w) d).
  destruct (deinterleave_length c (h * w) d) as [Hc Hm]. fold channels in Hc, Hm.
  assert (HE : Forall (fun ch => length ch = (h * w)%nat)
                      (map (apply_blocks K) channels)).
  { apply Forall_map. rewrite Forall_forall in *. intros ch Hch.
    rewrite (apply_blocks_length K ch q); rewrite ?(Hm ch Hch); try assumption;
      reflexivity. }
  rewrite <- Hc at 1. rewrite <- (length_map (apply_blocks K) channels).
  rewrite deinterleave_interleave by exact HE.
  rewrite map_map.
  rewrite (map_ext_in _ (fun ch => ch)), map_id.
  - apply interleave_deinterleave. exact Hd.
  - intros ch Hch.
    pose proof (deinterleave_bytes c (h * w) d Hd Hbytes) as Hb.
    fold channels in Hb. rewrite Forall_forall in Hb, Hm.
    apply (apply_blocks_inverse K Kinv ch q); try assumption.
    + rewrite (Hm ch Hch). exact Hq.
    + apply Hb, Hch.
Qed.

Lemma apply_array_length (A : zmatrix) (a : ndarray) (q : nat) :
  (0 < length A)%nat ->
  length (data a) = prod (shape a) ->
  (channel_length (shape a) = q * length A)%nat ->
  length (data (apply_array A a)) = prod (shape (apply_array A a)).
Proof.
  intros Hn Hlen Hq. rewrite apply_array_shape. unfold apply_array.
  destruct (shape a) as [|h [|w [|c [|x t]]]] eqn:E; cbn [data];
    try (rewrite (apply_blocks_length A _ q); cbn [channel_length] in Hq; lia).
  rewrite interleave_length, length_map.
  destruct (deinterleave_length c (h * w) (data a)) as [-> _].
  cbn [prod fold_right]. lia.
Qed.

Lemma encrypt_block_square (self : HillCipher) (K : zmatrix) (b : list Z) :
  key_matrix self = Some K -> is_square K = true -> length b = length K ->
  encrypt_block self b = inr (apply_mod256 K b).
Proof.
  intros HK Hsq Hb. unfold encrypt_block. rewrite HK.
  apply np_dot_square; assumption.
Qed.

Lemma decrypt_block_square (self : HillCipher) (Kinv : zmatrix) (b : list Z) :
  inverse_key_matrix self = Some Kinv -> is_square Kinv = true ->
  length b = length Kinv ->
  decrypt_block self b = inr (apply_mod256 Kinv b).
Proof.
  intros HK Hsq Hb. unfold decrypt_block. rewrite HK.
  apply np_dot_square; assumption.
Qed.

(** X1.  The round trip of encrypt_image and decrypt_image on images whose
    flattened channels have a length that is a multiple of the block size:
    for an instance whose key [K] and cached inverse [Kinv] are square of
    the dimension of the block size, with [Kinv * K] the identity modulo
    256, and every 8-bit image array, encrypt_image succeeds, keeps the
    shape, and decrypt_image gives the image back, with the recorded
    metadata and without it. *)
Theorem image_round_trip_aligned
  (self : HillCipher) (K Kinv : zmatrix) (img : image) :
  key_matrix self = Some K ->
  inverse_key_matrix self = Some Kinv ->
  is_square K = true ->
  is_square Kinv = true ->
  length Kinv = length K ->
  inverse_mod (length K) 256 Kinv K ->
  block_size self = Z.of_nat (length K) ->
  (0 < length K)%nat ->
  well_formed (pixels img) ->
  shape (pixels img) <> [] ->
  (channel_length (shape (pixels img)) mod length K = 0)%nat ->
  exists (encrypted : image) (md : metadata),
    encrypt_image self img = inr (encrypted, md)
    /\ shape (pixels encrypted) = shape (pixels img)
    /\ decrypt_image self encrypted (Some md) = inr img
    /\ decrypt_image self encrypted None = inr img.
Proof.
  intros HK HKinv Hsq HsqI HlenI Hinv Hbs Hn Hwf Hne Hmod.
  destruct img as [md_mode a]. cbn [pixels mode] in *.
  assert (Hq : exists q, channel_length (shape a) = (q * length K)%nat).
  { exists (channel_length (shape a) / length K)%nat.
    pose proof (Nat.div_mod_eq (channel_length (shape a)) (length K)). lia. }
  destruct Hq as [q Hq].
  pose proof Hwf as [Hlen Hbytes].
  assert (Henc : transform_array (encrypt_block self) self a (shape a)
                 = inr (apply_array K a)).
  { apply (transform_array_aligned _ self K a q); try assumption.
    intros b Hb. apply encrypt_block_square; assumption. }
  assert (Hdec : transform_array (decrypt_block self) self (apply_array K a)
                   (shape a)
                 = inr a).
  { rewrite <- (apply_array_inverse K Kinv a q) at 3 by assumption.
    rewrite <- (apply_array_shape K a).
    apply (transform_array_aligned _ self Kinv (apply_array K a) q).
    - rewrite HlenI. exact Hbs.
    - lia.
    - intros b Hb. apply decrypt_block_square; assumption.
    - rewrite apply_array_shape. exact Hne.
    - apply (apply_array_length K a q); assumption.
    - rewrite apply_array_shape, HlenI. exact Hq. }
  exists {| mode := md_mode; pixels := apply_array K a |}.
  exists {| original_shape := shape a; image_mode := md_mode;
            md_block_size := block_size self; md_key_matrix := K |}.
  unfold encrypt_image, decrypt_image. cbn [pixels mode original_shape image_mode].
  rewrite Henc, HK. cbn [bind ret].
  split; [reflexivity|]. split; [apply apply_array_shape|].
  rewrite apply_array_shape, Hdec. cbn [bind ret]. split; reflexivity.
Qed.

(** A color image of two pixels under the example key. *)
Lemma image_round_trip_aligned_witness :
  exists (encrypted : image) (md : metadata),
    encrypt_image cipher_3257 image_1x2_rgb = inr (encrypted, md)
    /\ shape (pixels encrypted) = shape (pixels image_1x2_rgb)
    /\ decrypt_image cipher_3257 encrypted (Some md) = inr image_1x2_rgb
    /\ decrypt_image cipher_3257 encrypted None = inr image_1x2_rgb.
Proof.
  apply (image_round_trip_aligned cipher_3257 K_3257 K_3257_inverse
           image_1x2_rgb).
  - reflexivity.
  - reflexivity.
  - reflexivity.
  - reflexivity.
  - reflexivity.
  - exact K_3257_inverse_mod.
  - reflexivity.
  - simpl. lia.
  - split; [reflexivity|].
    cbn. repeat (first [apply Forall_nil | apply Forall_cons]); lia.
  - discriminate.
  - reflexivity.
Defined.

(** X2.  A key that set_key_matrix accepts on accurate float determinants is
    cached with an inverse of it modulo 256, and the instance then decrypts
    every block it encrypts. *)
Theorem set_key_matrix_caches_inverse
  (np : Numpy) (self0 : HillCipher) (K : zmatrix) :
  is_square K = true ->
  Z.gcd (det K mod 256) 256 = 1 ->
  det_accurate np K ->
  (length K <> 2%nat -> minors_accurate np K) ->
  exists (self : HillCipher) (Kinv : zmatrix),
    set_key_matrix np self0 K = (self, true, None)
    /\ block_size self = block_size self0
    /\ key_matrix self = Some K
    /\ inverse_key_matrix self = Some Kinv
    /\ inverse_mod (length K) 256 Kinv K
    /\ (forall b : list Z,
          length b = length K ->
          Forall (fun x => 0 <= x < 256) b ->
          exists c : list Z,
            encrypt_block self b = inr c /\ decrypt_block self c = inr b).
Proof.
  intros Hsq Hgcd Hacc Hmin.
  destruct (matrix_inverse_mod_correct np K Hsq Hacc Hmin Hgcd)
    as [Kinv [Hret [Hlen [HsqI [_ Hinv]]]]].
  eexists. exists Kinv.
  split; [apply (set_key_matrix_success np self0 K Kinv Hret)|].
  cbn [block_size key_matrix inverse_key_matrix].
  repeat (split; [reflexivity|]). split; [exact Hinv|].
  intros b Hb Hbytes. exists (apply_mod256 K b).
  apply (encrypt_then_decrypt_block _ K Kinv b); try assumption; reflexivity.
Qed.

Lemma set_key_matrix_caches_inverse_witness :
  exists (self : HillCipher) (Kinv : zmatrix),
    set_key_matrix correctly_rounded_numpy
      (HillCipher_init correctly_rounded_numpy None 3) K_3x3
    = (self, true, None)
    /\ block_size self
       = block_size (HillCipher_init correctly_rounded_numpy None 3)
    /\ key_matrix self = Some K_3x3
    /\ inverse_key_matrix self = Some Kinv
    /\ inverse_mod (length K_3x3) 256 Kinv K_3x3
    /\ (forall b : list Z,
          length b = length K_3x3 ->
          Forall (fun x => 0 <= x < 256) b ->
          exists c : list Z,
            encrypt_block self b = inr c /\ decrypt_block self c = inr b).
Proof.
  apply (set_key_matrix_caches_inverse correctly_rounded_numpy
           (HillCipher_init correctly_rounded_numpy None 3) K_3x3).
  - reflexivity.
  - reflexivity.
  - vm_compute. reflexivity.
  - intros _ i j Hi Hj.
    destruct i as [|[|[|i]]]; [| | |simpl in Hi; lia];
      (destruct j as [|[|[|j]]]; [| | |simpl in Hj; lia]);
      vm_compute; reflexivity.
Defined.

(** * Further properties of the engine *)

(** ** gcd, extended_gcd and mod_inverse on all integers *)

Lemma gcd_divisor (a b : Z) : b <> 0 -> a mod b = 0 -> Z.gcd a b = Z.abs b.
Proof.
  intros Hb Hr. rewrite Z.gcd_comm, <- Z.gcd_mod, Hr by exact Hb.
  apply Z.gcd_0_l.
Qed.

Lemma gcd_loop_sign (fuel : nat) : forall a b : Z,
  (Z.abs_nat b < fuel)%nat ->
  gcd_loop fuel a b = if b =? 0 then a else Z.sgn b * Z.gcd a b.
Proof.
  induction fuel as [|fuel IH]; intros a b Hf; [lia|].
  cbn [gcd_loop]. destruct (Z.eqb_spec b 0) as [Hb|Hb]; [reflexivity|].
  assert (Hr : Z.abs (a mod b) < Z.abs b /\ (a mod b = 0 \/ Z.sgn (a mod b) = Z.sgn b)).
  { destruct (Z.lt_total b 0) as [Hneg|[?|Hpos]]; [|contradiction|].
    - pose proof (Z.mod_neg_bound a b Hneg). lia.
    - pose proof (Z.mod_pos_bound a b Hpos). lia. }
  destruct Hr as [Hlt Hsgn].
  rewrite IH by lia.
  destruct (Z.eqb_spec (a mod b) 0) as [E|E].
  - rewrite (gcd_divisor a b Hb E). lia.
  - destruct Hsgn as [?|Hs]; [contradiction|].
    rewrite Hs, Z.gcd_comm, Z.gcd_mod by exact Hb.
    rewrite (Z.gcd_comm b a). reflexivity.
Qed.

(** X3.  [gcd] terminates on all integers.  With [b = 0] it returns [a]
    itself; otherwise it returns the greatest common divisor with the sign
    of [b]: the mathematical one when [b] is positive, whatever the sign of
    [a]. *)
Theorem gcd_all_integers (a b : Z) :
  gcd a b = if b =? 0 then a else Z.sgn b * Z.gcd a b.
Proof. unfold gcd. apply gcd_loop_sign. lia. Qed.







(** ** matrix_inverse_mod: shape of the result, inverse on both sides *)

Lemma entries_between_map_mod_m (m : Z) (f : Z -> Z) (M : zmatrix) :
  0 < m -> entries_between 0 m (map (map (fun a => f a mod m)) M).
Proof.
  intros Hm. unfold entries_between. apply Forall_map, Forall_forall.
  intros row _. apply Forall_map, Forall_forall. intros a _.
  apply Z.mod_pos_bound. exact Hm.
Qed.

Lemma matrix_inverse_mod_shape (np : Numpy) (K Kinv : zmatrix) (m : Z) :
  0 < m ->
  matrix_inverse_mod np K m = inr Kinv ->
  is_square K = true
  /\ length Kinv = length K
  /\ is_square Kinv = true
  /\ entries_between 0 m Kinv.
Proof.
  intros Hm. unfold matrix_inverse_mod, rounded_det, np_linalg_det.
  destruct (is_square K) eqn:Hsq; [|discriminate]. cbn [bind ret].
  destruct (int_np_round _) as [e|d]; [discriminate|]. cbn [bind].
  destruct (Z.eqb_spec m 0) as [?|_]; [lia|].
  destruct (mod_inverse (d mod m) m) as [e|dinv]; [discriminate|]. cbn [bind].
  intros H. injection H as <-.
  set (adj := if (length K =? 2)%nat then adjugate_2x2 K
              else adjugate_cofactor np K m).
  assert (Hshape : length adj = length K /\ is_square adj = true).
  { unfold adj. destruct (Nat.eqb_spec (length K) 2) as [E|E].
    - rewrite E. apply adjugate_2x2_shape.
    - apply adjugate_cofactor_shape. }
  destruct Hshape as [Hlen Hsqadj].
  split; [reflexivity|].
  split; [rewrite length_map; exact Hlen|].
  split; [apply is_square_map_map; exact Hsqadj|].
  apply (entries_between_map_mod_m m (fun a => wrap64 (dinv * a))). exact Hm.
Qed.

(** X6.  Whatever NumPy's determinant routine returns, a matrix that
    matrix_inverse_mod returns for a positive modulus [m] is square, of the
    dimension of its (square) argument, with every entry in [[0, m)]. *)
Theorem matrix_inverse_mod_result_shape
  (np : Numpy) (K Kinv : zmatrix) (m : Z) :
  0 < m ->
  matrix_inverse_mod np K m = inr Kinv ->
  is_square K = true
  /\ length Kinv = length K
  /\ is_square Kinv = true
  /\ entries_between 0 m Kinv.
Proof. apply matrix_inverse_mod_shape. Qed.

Lemma matrix_inverse_mod_result_shape_witness :
  is_square K_3257 = true
  /\ length K_3257_inverse = length K_3257
  /\ is_square K_3257_inverse = true
  /\ entries_between 0 256 K_3257_inverse.
Proof.
  apply (matrix_inverse_mod_result_shape correctly_rounded_numpy
           K_3257 K_3257_inverse 256).
  - lia.
  - vm_compute. reflexivity.
Defined.

Module AdjugateRowTheory.
Import HB.structures.
Import ssreflect ssrfun ssrbool eqtype ssrnat seq choice.
Import fintype bigop ssralg ssrint matrix.
Import GRing.Theory.
Import AdjugateTheory.
Delimit Scope Z_scope with Z.
Local Open Scope ring_scope.

(** Row [i] of the matrix against row [j] of the cofactors. *)
Lemma cofactor_row_sum (n : nat) (M : zmatrix) (i j : nat) :
  Nat.lt i (S n) -> Nat.lt j (S n) ->
  sum_upto (S n)
    (fun k => Z.mul (entry M i k)
                (Z.mul (sign (j + k)) (det_n n (minor M j k))))
  = if Nat.eqb i j then det_n (S n) M else Z0.
Proof.
move=> /ltP hi /ltP hj.
have := mul_mx_adj (mx n.+1 M).
move/matrixP/(_ (Ordinal hi) (Ordinal hj)).
rewrite !mxE -det_n_mx -big_ord_sum_upto mulrb.
have -> : (Ordinal hi == Ordinal hj) = (i == j) by [].
have -> : Nat.eqb i j = (i == j).
  by apply/idP/eqP => [/Nat.eqb_eq|->] //; exact: Nat.eqb_refl.
move=> <-; apply: eq_bigr => k _.
by rewrite !mxE /cofactor -mx_minor -det_n_mx exp_sign.
Qed.

End AdjugateRowTheory.

Lemma cofactor_expansion_row (n : nat) (M : zmatrix) (i j : nat) :
  (i < n)%nat -> (j < n)%nat ->
  sum_upto n (fun k => entry M i k
                       * (sign (j + k) * det_n (n - 1) (minor M j k)))
  = if (i =? j)%nat then det_n n M else 0.
Proof.
  intros Hi Hj. destruct n as [|n]; [lia|].
  replace (S n - 1)%nat with n by lia.
  apply AdjugateRowTheory.cofactor_row_sum; assumption.
Qed.

(** The entries of the matrix matrix_inverse_mod returns, modulo 256, on
    accurate float determinants. *)
Lemma matrix_inverse_mod_entries (np : Numpy) (K : zmatrix) :
  is_square K = true ->
  det_accurate np K ->
  (length K <> 2%nat -> minors_accurate np K) ->
  Z.gcd (det K mod 256) 256 = 1 ->
  exists (dinv : Z) (Kinv : zmatrix),
    matrix_inverse_mod np K 256 = inr Kinv
    /\ length Kinv = length K
    /\ is_square Kinv = true
    /\ (dinv * det K) mod 256 = 1
    /\ (forall i k : nat, (i < length K)%nat -> (k < length K)%nat ->
          entry Kinv i k mod 256
          = (dinv * (sign (k + i) * det_n (length K - 1) (minor K k i)))
            mod 256).
Proof.
  intros Hsq Hacc Hmin Hgcd.
  unfold matrix_inverse_mod.
  rewrite (rounded_det_accurate np K Hsq Hacc). cbn [bind].
  change (256 =? 0) with false. cbv iota.
  destruct (mod_inverse_unit (det K mod 256) 256) as [dinv [Hinv [Hrange Hunit]]];
    [apply Z.mod_pos_bound; lia | lia | exact Hgcd |].
  rewrite Hinv. cbn [bind].
  set (adj := if (length K =? 2)%nat then adjugate_2x2 K
              else adjugate_cofactor np K 256).
  assert (Hshape : length adj = length K /\ is_square adj = true).
  { unfold adj. destruct (Nat.eqb_spec (length K) 2) as [E|E].
    - rewrite E. apply adjugate_2x2_shape.
    - apply adjugate_cofactor_shape. }
  destruct Hshape as [Hlen Hsqadj].
  assert (Hadj : forall i k, (i < length K)%nat -> (k < length K)%nat ->
            entry adj i k mod 256
            = (sign (k + i) * det_n (length K - 1) (minor K k i)) mod 256).
  { intros i k Hi Hk. unfold adj.
    destruct (Nat.eqb_spec (length K) 2) as [E|E].
    - rewrite E in *. apply adjugate_2x2_entry; assumption.
    - rewrite adjugate_cofactor_entry by assumption.
      rewrite cofactor_mod_accurate by (try apply Hmin; assumption).
      apply Z.mod_mod. lia. }
  exists dinv. eexists. split; [reflexivity|].
  split; [rewrite length_map; exact Hlen|].
  split; [apply is_square_map_map; exact Hsqadj|].
  split; [rewrite <- Z.mul_mod_idemp_r by lia; exact Hunit|].
  intros i k Hi Hk.
  rewrite entry_map_map
    by (rewrite ?is_square_row; rewrite ?Hlen; assumption).
  rewrite Z.mod_mod, wrap64_mod256 by lia.
  apply mul_mod256; [reflexivity|]. apply Hadj; assumption.
Qed.

(** X7.  On accurate float determinants the matrix cached by
    set_key_matrix inverts the key on both sides modulo 256, so the
    instance also encrypts back every block it decrypts: encrypt_block
    after decrypt_block is the identity on blocks of [len(K)] values in
    [0, 255]. *)
Theorem encrypt_block_inverts_decrypt_block
  (np : Numpy) (self0 : HillCipher) (K : zmatrix) (c : list Z) :
  is_square K = true ->
  Z.gcd (det K mod 256) 256 = 1 ->
  det_accurate np K ->
  (length K <> 2%nat -> minors_accurate np K) ->
  length c = length K ->
  Forall (fun x => 0 <= x < 256) c ->
  exists (self : HillCipher) (Kinv : zmatrix) (p : list Z),
    set_key_matrix np self0 K = (self, true, None)
    /\ inverse_key_matrix self = Some Kinv
    /\ inverse_mod (length K) 256 K Kinv
    /\ decrypt_block self c = inr p
    /\ encrypt_block self p = inr c.
Proof.
  intros Hsq Hgcd Hacc Hmin Hc Hbytes.
  destruct (matrix_inverse_mod_entries np K Hsq Hacc Hmin Hgcd)
    as [dinv [Kinv [Hret [Hlen [HsqI [Hunit Hent]]]]]].
  assert (Hright : inverse_mod (length K) 256 K Kinv).
  { intros i j Hi Hj.
    rewrite (sum_upto_mod256 _ _
      (fun k => dinv * (entry K i k
                        * (sign (j + k) * det_n (length K - 1) (minor K j k))))).
    - rewrite sum_upto_scale, cofactor_expansion_row by assumption.
      destruct (i =? j)%nat.
      + fold (det K). exact Hunit.
      + rewrite Z.mul_0_r. reflexivity.
    - intros k Hk.
      replace (dinv * (entry K i k
                       * (sign (j + k) * det_n (length K - 1) (minor K j k))))
        with (entry K i k
              * (dinv * (sign (j + k) * det_n (length K - 1) (minor K j k))))
        by lia.
      apply mul_mod256; [reflexivity|]. apply Hent; assumption. }
  eexists. exists Kinv, (apply_mod256 Kinv c).
  split; [apply (set_key_matrix_success np self0 K Kinv Hret)|].
  split; [reflexivity|]. split; [exact Hright|].
  unfold decrypt_block, encrypt_block. cbn [inverse_key_matrix key_matrix].
  split.
  - apply np_dot_square; [exact HsqI | lia].
  - rewrite np_dot_square by (try rewrite apply_mod256_length; try assumption; lia).
    f_equal. apply apply_mod256_inverse; try assumption; try lia.
    rewrite Hlen. exact Hright.
Qed.

Lemma encrypt_block_inverts_decrypt_block_witness :
  exists (self : HillCipher) (Kinv : zmatrix) (p : list Z),
    set_key_matrix correctly_rounded_numpy
      (HillCipher_init correctly_rounded_numpy None 3) K_3x3
    = (self, true, None)
    /\ inverse_key_matrix self = Some Kinv
    /\ inverse_mod (length K_3x3) 256 K_3x3 Kinv
    /\ decrypt_block self [200; 100; 7] = inr p
    /\ encrypt_block self p = inr [200; 100; 7].
Proof.
  apply (encrypt_block_inverts_decrypt_block correctly_rounded_numpy
           (HillCipher_init correctly_rounded_numpy None 3) K_3x3
           [200; 100; 7]).
  - reflexivity.
  - reflexivity.
  - vm_compute. reflexivity.
  - intros _ i j Hi Hj.
    destruct i as [|[|[|i]]]; [| | |simpl in Hi; lia];
      (destruct j as [|[|[|j]]]; [| | |simpl in Hj; lia]);
      vm_compute; reflexivity.
  - reflexivity.
  - repeat (first [apply Forall_nil | apply Forall_cons]); lia.
Defined.

(** ** generate_random_key and the constructor *)

Lemma unit_determinant_accepted (np : Numpy) (M : zmatrix) :
  unit_determinant np M -> accepted_key np M.
Proof. intros [d [Hd Hg]]. exact (matrix_inverse_mod_unit np M d Hd Hg). Qed.

(** X8.  generate_random_key returns the first sample whose rounded
    determinant is a unit modulo 256, and the call of set_key_matrix it
    makes on that sample always succeeds: the instance it leaves holds the
    returned key with a cached inverse and the block size it had.  It keeps
    drawing exactly as long as the samples are refused. *)
Theorem generate_random_key_first_unit
  (np : Numpy) (self : HillCipher) (samples : list zmatrix) :
  match generate_random_key np self samples with
  | Some (self', key) =>
      exists (refused rest : list zmatrix) (Kinv : zmatrix),
        samples = refused ++ key :: rest
        /\ Forall (fun s => ~ unit_determinant np s) refused
        /\ unit_determinant np key
        /\ set_key_matrix np self key = (self', true, None)
        /\ block_size self' = block_size self
        /\ key_matrix self' = Some key
        /\ inverse_key_matrix self' = Some Kinv
  | None => Forall (fun s => ~ unit_determinant np s) samples
  end.
Proof.
  induction samples as [|key rest IH]; [constructor|].
  cbn [generate_random_key].
  assert (Hrefuse : ~ unit_determinant np key ->
            match generate_random_key np self rest with
            | Some (self', key0) =>
                exists (refused rest0 : list zmatrix) (Kinv : zmatrix),
                  key :: rest = refused ++ key0 :: rest0
                  /\ Forall (fun s => ~ unit_determinant np s) refused
                  /\ unit_determinant np key0
                  /\ set_key_matrix np self key0 = (self', true, None)
                  /\ block_size self' = block_size self
                  /\ key_matrix self' = Some key0
                  /\ inverse_key_matrix self' = Some Kinv
            | None => Forall (fun s => ~ unit_determinant np s) (key :: rest)
            end).
  { intros Hno. destruct (generate_random_key np self rest) as [[self' key0]|].
    - destruct IH as [refused [rest0 [Kinv [Hs [Href H]]]]].
      exists (key :: refused), rest0, Kinv. rewrite Hs.
      split; [reflexivity|]. split; [constructor; assumption | exact H].
    - constructor; assumption. }
  destruct (rounded_det np key) as [e|d] eqn:Hd.
  - apply Hrefuse. intros [d [Hd' _]]. congruence.
  - rewrite gcd_spec by (try apply Z.mod_pos_bound; lia).
    destruct (Z.eqb_spec (Z.gcd (d mod 256) 256) 1) as [Hg|Hg].
    + destruct (matrix_inverse_mod_unit np key d Hd Hg) as [Kinv HKinv].
      exists [], rest, Kinv.
      rewrite (set_key_matrix_success np self key Kinv HKinv).
      cbn [fst app block_size key_matrix inverse_key_matrix].
      repeat split; try reflexivity; [constructor | exists d; split; assumption].
    + apply Hrefuse. intros [d' [Hd' Hg']]. congruence.
Qed.

(** X9.  The constructor.  Without a key the instance can neither encrypt
    nor decrypt nor save.  With a key that matrix_inverse_mod accepts it
    holds the key and its inverse.  With a key that is refused the
    constructor still returns an instance: it holds the refused key and no
    inverse, so it encrypts every block of the right length and saves the
    key, but cannot decrypt. *)
Theorem HillCipher_init_cases (np : Numpy) (bs : Z) :
  (let self := HillCipher_init np None bs in
   block_size self = bs
   /\ (forall b, encrypt_block self b = inl ValueError_key_not_set)
   /\ (forall b, decrypt_block self b = inl ValueError_inverse_not_set)
   /\ save_key self = (false, None))
  /\ (forall K Kinv : zmatrix,
        matrix_inverse_mod np K 256 = inr Kinv ->
        HillCipher_init np (Some K) bs
        = {| block_size := bs; key_matrix := Some K;
             inverse_key_matrix := Some Kinv |})
  /\ (forall (K : zmatrix) (e : exn),
        matrix_inverse_mod np K 256 = inl e ->
        let self := HillCipher_init np (Some K) bs in
        self = {| block_size := bs; key_matrix := Some K;
                  inverse_key_matrix := None |}
        /\ (forall b, length b = ncols K ->
              exists c, encrypt_block self b = inr c)
        /\ (forall b, decrypt_block self b = inl ValueError_inverse_not_set)
        /\ save_key self
           = (true, Some {| kd_key_matrix := Some K;
                            kd_block_size := Some bs |})).
Proof.
  split; [|split].
  - cbn. repeat split; reflexivity.
  - intros K Kinv H. unfold HillCipher_init.
    rewrite (set_key_matrix_success np _ K Kinv H). reflexivity.
  - intros K e H. unfold HillCipher_init.
    rewrite (set_key_matrix_failure np _ K e H). cbn [fst].
    cbn [block_size key_matrix inverse_key_matrix].
    split; [reflexivity|]. split; [|split; reflexivity].
    intros b Hb. unfold encrypt_block, np_dot. cbn [key_matrix].
    rewrite Hb, Nat.eqb_refl. cbn [bind ret]. eexists. reflexivity.
Qed.

(** ** Blocks: what encrypt_block and decrypt_block accept and return *)

Lemma np_dot_cases (A : zmatrix) (b : list Z) :
  (x <- np_dot A b ;; ret (map (fun x => astype_uint8 (x mod 256)) x))
  = if (ncols A =? length b)%nat
    then inr (map (fun row =>
                     astype_uint8
                       (wrap64 (sumZ (map (fun p => fst p * snd p)
                                          (combine row b))) mod 256)) A)
    else inl ValueError_shapes.
Proof.
  unfold np_dot. destruct (ncols A =? length b)%nat; [|reflexivity].
  unfold bind, ret. rewrite map_map. reflexivity.
Qed.

Lemma transformed_block_shape (A : zmatrix) (b : list Z) (c : list Z) :
  c = map (fun row =>
             astype_uint8
               (wrap64 (sumZ (map (fun p => fst p * snd p) (combine row b)))
                mod 256)) A ->
  length c = length A /\ Forall (fun x => 0 <= x < 256) c.
Proof.
  intros ->. split; [apply length_map|].
  apply Forall_map, Forall_forall. intros row _.
  unfold astype_uint8. apply Z.mod_pos_bound. lia.
Qed.

(** X10.  encrypt_block and decrypt_block.  Without the matrix they need
    they raise.  With it they accept exactly the blocks that have as many
    values as the matrix has columns, whatever the values, and return as
    many values as the matrix has rows, each in [0, 255]; any other block
    raises the shape error of np.dot. *)
Theorem block_functions_contract (self : HillCipher) (b : list Z) :
  match key_matrix self with
  | None => encrypt_block self b = inl ValueError_key_not_set
  | Some K =>
      if (ncols K =? length b)%nat
      then exists c : list Z,
             encrypt_block self b = inr c
             /\ length c = length K
             /\ Forall (fun x => 0 <= x < 256) c
      else encrypt_block self b = inl ValueError_shapes
  end
  /\ match inverse_key_matrix self with
     | None => decrypt_block self b = inl ValueError_inverse_not_set
     | Some Kinv =>
         if (ncols Kinv =? length b)%nat
         then exists p : list Z,
                decrypt_block self b = inr p
                /\ length p = length Kinv
                /\ Forall (fun x => 0 <= x < 256) p
         else decrypt_block self b = inl ValueError_shapes
     end.
Proof.
  unfold encrypt_block, decrypt_block. split.
  - destruct (key_matrix self) as [K|]; [|reflexivity].
    rewrite np_dot_cases. destruct (ncols K =? length b)%nat; [|reflexivity].
    eexists. split; [reflexivity|]. apply (transformed_block_shape K b).
    reflexivity.
  - destruct (inverse_key_matrix self) as [K|]; [|reflexivity].
    rewrite np_dot_cases. destruct (ncols K =? length b)%nat; [|reflexivity].
    eexists. split; [reflexivity|]. apply (transformed_block_shape K b).
    reflexivity.
Qed.

Lemma nth_add_mod256 (b1 b2 : list Z) (j : nat) :
  length b1 = length b2 -> (j < length b1)%nat ->
  nth j (add_mod256 b1 b2) 0 = (nth j b1 0 + nth j b2 0) mod 256.
Proof.
  intros Hlen Hj. unfold add_mod256.
  set (f := fun p : Z * Z => (fst p + snd p) mod 256).
  rewrite (nth_indep _ 0 (f (0, 0)))
    by (rewrite length_map, length_combine; lia).
  rewrite (map_nth f), combine_nth by exact Hlen. reflexivity.
Qed.

Lemma add_mod256_length (b1 b2 : list Z) :
  length b1 = length b2 -> length (add_mod256 b1 b2) = length b1.
Proof.
  intros H. unfold add_mod256. rewrite length_map, length_combine. lia.
Qed.

Lemma apply_mod256_add (K : zmatrix) (b1 b2 : list Z) :
  length b1 = length K -> length b2 = length K ->
  apply_mod256 K (add_mod256 b1 b2)
  = add_mod256 (apply_mod256 K b1) (apply_mod256 K b2).
Proof.
  intros H1 H2. apply (nth_ext _ _ 0 0).
  - rewrite add_mod256_length by (rewrite !apply_mod256_length; reflexivity).
    rewrite !apply_mod256_length. reflexivity.
  - intros i Hi. rewrite apply_mod256_length in Hi.
    rewrite nth_add_mod256
      by (rewrite !apply_mod256_length; try reflexivity; exact Hi).
    rewrite !apply_mod256_nth by exact Hi.
    rewrite <- Z.add_mod by lia. rewrite <- sum_upto_add.
    apply sum_upto_mod256. intros j Hj.
    rewrite nth_add_mod256 by lia.
    rewrite Z.mul_mod_idemp_r by lia. f_equal. lia.
Qed.

Lemma apply_mod256_zero (K : zmatrix) :
  apply_mod256 K (repeat 0 (length K)) = repeat 0 (length K).
Proof.
  apply (nth_ext _ _ 0 0).
  - rewrite apply_mod256_length, repeat_length. reflexivity.
  - intros i Hi. rewrite apply_mod256_length in Hi.
    rewrite apply_mod256_nth by exact Hi.
    rewrite (sum_upto_ext _ _ (fun _ => 0)).
    + rewrite sum_upto_0, nth_repeat. reflexivity.
    + intros j _. rewrite nth_repeat. lia.
Qed.

(** X11.  encrypt_block is linear modulo 256.  With a square key of
    dimension [N], the block of [N] zeros encrypts to itself, and the
    encryption of the sum (value by value, modulo 256) of two blocks is the
    sum of their encryptions. *)
Theorem encrypt_block_linear (self : HillCipher) (K : zmatrix) (b1 b2 : list Z) :
  key_matrix self = Some K ->
  is_square K = true ->
  length b1 = length K ->
  length b2 = length K ->
  encrypt_block self (repeat 0 (length K)) = inr (repeat 0 (length K))
  /\ exists c1 c2 : list Z,
       encrypt_block self b1 = inr c1
       /\ encrypt_block self b2 = inr c2
       /\ encrypt_block self (add_mod256 b1 b2) = inr (add_mod256 c1 c2).
Proof.
  intros HK Hsq H1 H2. split.
  - rewrite (encrypt_block_square self K) by (try rewrite repeat_length; auto).
    f_equal. apply apply_mod256_zero.
  - exists (apply_mod256 K b1), (apply_mod256 K b2).
    rewrite !(encrypt_block_square self K)
      by (try rewrite add_mod256_length; auto; lia).
    repeat split. f_equal. apply apply_mod256_add; assumption.
Qed.

Lemma encrypt_block_linear_witness :
  encrypt_block cipher_3257 (repeat 0 (length K_3257))
  = inr (repeat 0 (length K_3257))
  /\ exists c1 c2 : list Z,
       encrypt_block cipher_3257 [200; 100] = inr c1
       /\ encrypt_block cipher_3257 [100; 250] = inr c2
       /\ encrypt_block cipher_3257 (add_mod256 [200; 100] [100; 250])
          = inr (add_mod256 c1 c2).
Proof.
  apply (encrypt_block_linear cipher_3257 K_3257 [200; 100] [100; 250]);
    reflexivity.
Defined.

(** ** pad_data *)

Lemma pad_data_nat (self : HillCipher) (n : nat) (d : list Z) :
  block_size self = Z.of_nat n -> (0 < n)%nat ->
  pad_data self d = inr (padded n d).
Proof.
  intros Hbs Hn. unfold pad_data, padded. rewrite Hbs.
  destruct (Z.eqb_spec (Z.of_nat n) 0) as [?|_]; [lia|].
  rewrite <- Nat2Z.inj_mod.
  pose proof (Nat.mod_upper_bound (length d) n ltac:(lia)) as Hr.
  destruct (Z.eqb_spec (Z.of_nat (length d mod n)) 0) as [E|E]; cbn [negb].
  - replace (length d mod n)%nat with 0%nat by lia.
    rewrite Nat.sub_0_r, Nat.Div0.mod_same. cbn [repeat].
    rewrite app_nil_r. reflexivity.
  - destruct (Z.ltb_spec (Z.of_nat n - Z.of_nat (length d mod n)) 0); [lia|].
    rewrite (Nat.mod_small (n - length d mod n)) by lia.
    rewrite <- Nat2Z.inj_sub, Nat2Z.id by lia. reflexivity.
Qed.

Lemma padded_length (n : nat) (d : list Z) :
  (0 < n)%nat ->
  exists q : nat, length (padded n d) = (q * n)%nat
                  /\ (length d <= length (padded n d))%nat.
Proof.
  intros Hn. unfold padded. rewrite length_app, repeat_length.
  pose proof (Nat.div_mod_eq (length d) n) as Hdm.
  pose proof (Nat.mod_upper_bound (length d) n ltac:(lia)) as Hr.
  destruct (Nat.eq_dec (length d mod n) 0) as [E|E].
  - rewrite E, Nat.sub_0_r, Nat.Div0.mod_same.
    exists (length d / n)%nat. lia.
  - rewrite (Nat.mod_small (n - length d mod n)) by lia.
    exists (S (length d / n)). lia.
Qed.

(** X12.  pad_data is idempotent: whatever the block size, data that
    pad_data returns is returned unchanged when padded again. *)
Theorem pad_data_idempotent (self : HillCipher) (s p : list Z) :
  pad_data self s = inr p -> pad_data self p = inr p.
Proof.
  unfold pad_data.
  destruct (Z.eqb_spec (block_size self) 0) as [E|E]; [discriminate|].
  set (N := block_size self) in *.
  destruct (Z.eqb_spec (Z.of_nat (length s) mod N) 0) as [Hr|Hr]; cbn [negb].
  - intros H. injection H as <-. rewrite Hr. reflexivity.
  - destruct (Z.ltb_spec (N - Z.of_nat (length s) mod N) 0) as [Hneg|Hpos];
      [discriminate|].
    intros H. injection H as <-.
    assert (Hlen : Z.of_nat (length (s ++ repeat 0
                     (Z.to_nat (N - Z.of_nat (length s) mod N)))) mod N = 0).
    { rewrite length_app, repeat_length, Nat2Z.inj_add, Z2Nat.id by lia.
      pose proof (Z.div_mod (Z.of_nat (length s)) N E).
      replace (Z.of_nat (length s) + (N - Z.of_nat (length s) mod N))
        with ((Z.of_nat (length s) / N + 1) * N) by lia.
      apply Z.mod_mul. exact E. }
    rewrite Hlen. reflexivity.
Qed.

Lemma pad_data_idempotent_witness :
  pad_data cipher_3257 [10; 20; 30; 40; 50; 0] = inr [10; 20; 30; 40; 50; 0].
Proof.
  apply (pad_data_idempotent cipher_3257 [10; 20; 30; 40; 50]).
  reflexivity.
Defined.

(** ** Images of any size: encrypt_image and decrypt_image succeed *)

Lemma transform_channel_any (f : list Z -> result (list Z))
  (self : HillCipher) (A : zmatrix) (d : list Z) :
  block_size self = Z.of_nat (length A) -> (0 < length A)%nat ->
  (forall b, length b = length A -> f b = inr (apply_mod256 A b)) ->
  transform_channel f self d = inr (apply_blocks A (padded (length A) d)).
Proof.
  intros Hbs Hn Hf.
  destruct (padded_length (length A) d Hn) as [q [Hq _]].
  pose proof (transform_channel_aligned f self A _ q Hbs Hn Hq Hf) as H.
  unfold transform_channel in *.
  rewrite (pad_data_aligned self _ (length A) q Hbs Hn Hq) in H.
  rewrite (pad_data_nat self (length A) d Hbs Hn). exact H.
Qed.

Lemma apply_blocks_bytes (A : zmatrix) (d : list Z) :
  Forall (fun x => 0 <= x < 256) (apply_blocks A d).
Proof.
  unfold apply_blocks. apply Forall_concat, Forall_map, Forall_forall.
  intros b _. unfold apply_mod256. apply Forall_map, Forall_forall.
  intros row _. unfold astype_uint8. apply Z.mod_pos_bound. lia.
Qed.

Lemma apply_blocks_padded_length (A : zmatrix) (d : list Z) :
  (0 < length A)%nat ->
  length (apply_blocks A (padded (length A) d)) = length (padded (length A) d)
  /\ (length d <= length (padded (length A) d))%nat.
Proof.
  intros Hn. destruct (padded_length (length A) d Hn) as [q [Hq Hle]].
  split; [apply (apply_blocks_length A _ q Hn Hq) | exact Hle].
Qed.

Lemma firstn_bytes (n : nat) (l : list Z) :
  Forall (fun x => 0 <= x < 256) l ->
  Forall (fun x => 0 <= x < 256) (firstn n l).
Proof.
  intros H. rewrite <- (firstn_skipn n l) in H.
  apply Forall_app in H. apply H.
Qed.

Lemma nth_bytes (l : list Z) (i : nat) :
  Forall (fun x => 0 <= x < 256) l -> 0 <= nth i l 0 < 256.
Proof.
  intros H. destruct (Nat.lt_ge_cases i (length l)) as [Hi|Hi].
  - rewrite Forall_forall in H. apply H, nth_In, Hi.
  - rewrite nth_overflow by exact Hi. lia.
Qed.

Lemma interleave_bytes (m : nat) (channels : list (list Z)) :
  Forall (Forall (fun x => 0 <= x < 256)) channels ->
  Forall (fun x => 0 <= x < 256) (interleave m channels).
Proof.
  intros H. unfold interleave. apply Forall_concat, Forall_map, Forall_forall.
  intros i _. apply Forall_map. rewrite Forall_forall in *.
  intros ch Hch. apply nth_bytes. apply H, Hch.
Qed.

(** transform_array on any array with its own shape. *)
Lemma transform_array_any (f : list Z -> result (list Z))
  (self : HillCipher) (A : zmatrix) (a : ndarray) :
  block_size self = Z.of_nat (length A) -> (0 < length A)%nat ->
  (forall b, length b = length A -> f b = inr (apply_mod256 A b)) ->
  shape a <> [] ->
  length (data a) = prod (shape a) ->
  transform_array f self a (shape a) = inr (transform_image A a).
Proof.
  intros Hbs Hn Hf Hne Hlen. unfold transform_image, transform_array.
  assert (Hflat : length (shape a) <> 3%nat ->
            (out <- transform_channel f self (data a) ;;
             reassemble_flat out (shape a))
            = inr {| shape := shape a;
                     data := firstn (prod (shape a))
                               (apply_blocks A (padded (length A) (data a))) |}).
  { intros _. rewrite (transform_channel_any f self A) by assumption.
    cbn [bind]. unfold reassemble_flat.
    destruct (shape a) as [|d0 sh] eqn:E; [contradiction|].
    destruct (apply_blocks_padded_length A (data a) Hn) as [Hl Hle].
    rewrite length_firstn, Hl, Nat.min_l, Nat.eqb_refl by lia. reflexivity. }
  destruct (shape a) as [|h [|w [|c [|x t]]]] eqn:E;
    try contradiction; cbn [length Nat.eqb];
    try (apply Hflat; cbn [length]; lia).
  cbn [nth].
  rewrite (mapM_map _
    (fun k => apply_blocks A
                (padded (length A)
                   (map (fun i => nth (i * c + k) (data a) 0) (seq 0 (h * w)))))).
  2:{ intros k Hk. apply in_seq in Hk. unfold channel_data. rewrite E.
      destruct (Nat.ltb_spec k c) as [_|?]; [|lia]. cbn [bind ret].
      apply (transform_channel_any f self A); assumption. }
  cbn [bind].
  replace (map _ (seq 0 c))
    with (map (fun ch => apply_blocks A (padded (length A) ch))
              (deinterleave c (h * w) (data a)))
    by (unfold deinterleave; rewrite map_map; reflexivity).
  set (channels := map _ (deinterleave c (h * w) (data a))).
  assert (Hc : length channels = c).
  { unfold channels. rewrite length_map. apply deinterleave_length. }
  assert (Hm : Forall (fun ch => (h * w <= length ch)%nat) channels).
  { unfold channels, deinterleave. rewrite map_map.
    apply Forall_map, Forall_forall. intros k _.
    destruct (apply_blocks_padded_length A
                (map (fun i => nth (i * c + k) (data a) 0) (seq 0 (h * w))) Hn)
      as [Hl Hle].
    rewrite Hl. rewrite length_map, length_seq in Hle. exact Hle. }
  unfold reassemble_channels.
  assert (Hdata : concat (map (fun k => map (fun ch => nth k ch 0) channels)
                              (seq 0 (Nat.min (prod (firstn 2 [h; w; c]))
                                              (length (hd [] channels)))))
                  = interleave (h * w) channels).
  { destruct channels as [|ch channels'] eqn:Ech.
    - cbn [hd length]. rewrite Nat.min_0_r, interleave_nil. reflexivity.
    - inversion Hm as [|? ? Hch _]; subst. cbn [hd firstn prod fold_right].
      rewrite Nat.mul_1_r, Nat.min_l by exact Hch. reflexivity. }
  rewrite Hdata, interleave_length, Hc.
  replace (h * w * c =? prod [h; w; c])%nat with true; [reflexivity|].
  symmetry. apply Nat.eqb_eq. cbn [prod fold_right]. lia.
Qed.

Lemma transform_image_well_formed (A : zmatrix) (a : ndarray) :
  (0 < length A)%nat ->
  length (data a) = prod (shape a) ->
  shape (transform_image A a) = shape a /\ well_formed (transform_image A a).
Proof.
  intros Hn Hlen. unfold transform_image, well_formed.
  assert (Hflat : forall sh,
            length (data a) = prod sh ->
            length (firstn (prod sh) (apply_blocks A (padded (length A) (data a))))
            = prod sh
            /\ Forall (fun x => 0 <= x < 256)
                 (firstn (prod sh) (apply_blocks A (padded (length A) (data a))))).
  { intros sh Hsh. split.
    - destruct (apply_blocks_padded_length A (data a) Hn) as [Hl Hle].
      rewrite length_firstn, Hl. lia.
    - apply firstn_bytes, apply_blocks_bytes. }
  destruct (shape a) as [|h [|w [|c [|x t]]]] eqn:E; cbn [shape data];
    try (split; [reflexivity | apply Hflat; exact Hlen]).
  split; [reflexivity|]. split.
  - rewrite interleave_length, length_map.
    destruct (deinterleave_length c (h * w) (data a)) as [-> _].
    cbn [prod fold_right]. lia.
  - apply interleave_bytes, Forall_map, Forall_forall. intros ch _.
    apply apply_blocks_bytes.
Qed.





(** ** Images: what stops encrypt_image and decrypt_image *)

(** The first block of a non-empty channel has the length of the block
    size; a block function that fails on such blocks stops the channel. *)
Lemma transform_channel_first_block (f : list Z -> result (list Z))
  (self : HillCipher) (d : list Z) (e : exn) :
  0 < block_size self ->
  (forall b, Z.of_nat (length b) = block_size self -> f b = inl e) ->
  d <> [] ->
  transform_channel f self d = inl e.
Proof.
  intros Hbs Hf Hd. unfold transform_channel.
  set (n := Z.to_nat (block_size self)).
  assert (Hn : (0 < n)%nat) by (unfold n; lia).
  assert (Hbsn : block_size self = Z.of_nat n) by (unfold n; lia).
  rewrite (pad_data_nat self n d Hbsn Hn). cbn [bind].
  destruct (padded_length n d Hn) as [q [Hq Hle]].
  unfold blocks. destruct (Z.leb_spec (block_size self) 0) as [?|_]; [lia|].
  fold n.
  assert (Hlen : (0 < length d)%nat).
  { destruct d; [contradiction | simpl; lia]. }
  destruct (padded n d) as [|x p] eqn:Ep; [simpl in Hle; lia|].
  cbn [length blocks_from mapM].
  rewrite Hf; [reflexivity|].
  rewrite length_firstn, Hbsn. cbn [length] in Hq, Hle.
  destruct q as [|q]; [lia|]. cbn [length]. lia.
Qed.

Lemma transform_array_first_block (f : list Z -> result (list Z))
  (self : HillCipher) (a : ndarray) (e : exn) :
  0 < block_size self ->
  (forall b, Z.of_nat (length b) = block_size self -> f b = inl e) ->
  length (data a) = prod (shape a) ->
  (0 < prod (shape a))%nat ->
  transform_array f self a (shape a) = inl e.
Proof.
  intros Hbs Hf Hlen Hpos. unfold transform_array.
  assert (Hflat : (out <- transform_channel f self (data a) ;;
                   reassemble_flat out (shape a)) = inl e).
  { rewrite (transform_channel_first_block f self (data a) e);
      [reflexivity | assumption | assumption |].
    destruct (data a); [simpl in Hlen; lia | discriminate]. }
  destruct (shape a) as [|h [|w [|c [|x t]]]] eqn:E;
    cbn [length Nat.eqb]; try exact Hflat.
  cbn [prod fold_right] in Hpos. cbn [nth].
  destruct c as [|c]; [lia|]. cbn [seq mapM].
  unfold channel_data. rewrite E. cbn [Nat.ltb Nat.leb bind ret].
  rewrite (transform_channel_first_block f self _ e);
    [reflexivity | assumption | assumption |].
  destruct (h * w)%nat as [|m] eqn:Em; [lia | discriminate].
Qed.

(** X15.  Without a key encrypt_image never succeeds, whatever the image:
    an empty image passes the loops and fails on the key of the metadata;
    on an image with at least one pixel and a positive block size the
    failure is the [Key matrix not set] of encrypt_block. *)
Theorem encrypt_image_without_key (self : HillCipher) (img : image) :
  key_matrix self = None ->
  (exists e : exn, encrypt_image self img = inl e)
  /\ (0 < block_size self ->
      length (data (pixels img)) = prod (shape (pixels img)) ->
      (0 < prod (shape (pixels img)))%nat ->
      encrypt_image self img = inl ValueError_key_not_set).
Proof.
  intros HK. split.
  - unfold encrypt_image. rewrite HK.
    destruct (transform_array _ _ _ _) as [e|arr]; cbn [bind];
      eexists; reflexivity.
  - intros Hbs Hlen Hpos. unfold encrypt_image.
    rewrite (transform_array_first_block _ self (pixels img)
               ValueError_key_not_set); try assumption; [reflexivity|].
    intros b _. unfold encrypt_block. rewrite HK. reflexivity.
Qed.

Lemma encrypt_image_without_key_witness :
  (exists e : exn,
     encrypt_image (HillCipher_init correctly_rounded_numpy None 2) image_1x5
     = inl e)
  /\ (0 < block_size (HillCipher_init correctly_rounded_numpy None 2) ->
      length (data (pixels image_1x5)) = prod (shape (pixels image_1x5)) ->
      (0 < prod (shape (pixels image_1x5)))%nat ->
      encrypt_image (HillCipher_init correctly_rounded_numpy None 2) image_1x5
      = inl ValueError_key_not_set).
Proof.
  apply (encrypt_image_without_key
           (HillCipher_init correctly_rounded_numpy None 2) image_1x5).
  reflexivity.
Defined.




(** X17.  set_key_matrix leaves the block size as it is.  Once it has
    accepted a key whose dimension is not the (positive) block size of the
    instance, every image of at least one pixel stops both encrypt_image
    and decrypt_image at the first block, on the [shapes not aligned] of
    np.dot. *)
Theorem key_of_another_dimension_stops_images
  (np : Numpy) (self0 self : HillCipher) (K : zmatrix) (img : image)
  (md : option metadata) :
  set_key_matrix np self0 K = (self, true, None) ->
  0 < block_size self0 ->
  block_size self0 <> Z.of_nat (length K) ->
  length (data (pixels img)) = prod (shape (pixels img)) ->
  (0 < prod (shape (pixels img)))%nat ->
  match md with
  | Some m => original_shape m = shape (pixels img)
  | None => True
  end ->
  block_size self = block_size self0
  /\ encrypt_image self img = inl ValueError_shapes
  /\ decrypt_image self img md = inl ValueError_shapes.
Proof.
  intros Hset Hbs Hdim Hlen Hpos Hmd.
  unfold set_key_matrix in Hset.
  destruct (matrix_inverse_mod np K 256) as [e|Kinv] eqn:Hinv;
    [discriminate|].
  destruct (matrix_inverse_mod_shape np K Kinv 256 ltac:(lia) Hinv)
    as [Hsq [HlenI [HsqI _]]].
  injection Hset as <-. cbn [block_size key_matrix inverse_key_matrix].
  set (self := {| block_size := block_size self0; key_matrix := Some K;
                  inverse_key_matrix := Some Kinv |}).
  split; [reflexivity|].
  assert (Hdot : forall (A : zmatrix) (b : list Z),
            is_square A = true -> length A = length K ->
            Z.of_nat (length b) = block_size self0 ->
            (v <- np_dot A b ;; ret (map (fun x => astype_uint8 (x mod 256)) v))
            = inl ValueError_shapes).
  { intros A b HA HlA Hb. unfold np_dot. rewrite (ncols_square A HA).
    destruct (Nat.eqb_spec (length A) (length b)) as [E|_]; [lia|].
    reflexivity. }
  split.
  - unfold encrypt_image.
    rewrite (transform_array_first_block _ self (pixels img)
               ValueError_shapes); try assumption; [reflexivity|].
    intros b Hb. unfold encrypt_block. cbn [key_matrix self].
    apply Hdot; [assumption | reflexivity | exact Hb].
  - unfold decrypt_image.
    assert (H : transform_array (decrypt_block self) self (pixels img)
                  (shape (pixels img))
                = inl ValueError_shapes).
    { apply transform_array_first_block; try assumption.
      intros b Hb. unfold decrypt_block. cbn [inverse_key_matrix self].
      apply Hdot; assumption. }
    destruct md as [m|]; [rewrite Hmd|]; rewrite H; reflexivity.
Qed.

Lemma key_of_another_dimension_stops_images_witness :
  exists self : HillCipher,
    set_key_matrix correctly_rounded_numpy
      (HillCipher_init correctly_rounded_numpy None 2) K_3x3
    = (self, true, None)
    /\ block_size self
       = block_size (HillCipher_init correctly_rounded_numpy None 2)
    /\ encrypt_image self image_1x5 = inl ValueError_shapes
    /\ decrypt_image self image_1x5 None = inl ValueError_shapes.
Proof.
  eexists. split; [vm_compute; reflexivity|].
  apply (key_of_another_dimension_stops_images correctly_rounded_numpy
           (HillCipher_init correctly_rounded_numpy None 2) _ K_3x3
           image_1x5 None).
  - vm_compute. reflexivity.
  - reflexivity.
  - discriminate.
  - reflexivity.
  - simpl. lia.
  - exact I.
Defined.

(** ** Images of any size: the complete blocks survive the round trip *)

Lemma blocks_from_fuel (n : nat) : forall (fuel1 fuel2 : nat) (l : list Z),
  (0 < n)%nat -> (length l <= fuel1)%nat -> (length l <= fuel2)%nat ->
  blocks_from fuel1 n l = blocks_from fuel2 n l.
Proof.
  induction fuel1 as [|fuel1 IH]; intros fuel2 l Hn H1 H2.
  - destruct l; [|simpl in H1; lia]. destruct fuel2; reflexivity.
  - destruct l as [|x t]; [destruct fuel2; reflexivity|].
    destruct fuel2 as [|fuel2]; [simpl in H2; lia|].
    cbn [blocks_from]. f_equal.
    cbn [length] in H1, H2.
    apply IH; [exact Hn| |]; rewrite length_skipn; cbn [length]; lia.
Qed.

Lemma blocks_from_app (n : nat) (bs : list (list Z)) (y : list Z) :
  (0 < n)%nat ->
  Forall (fun b => length b = n) bs ->
  blocks_from (length (concat bs ++ y)) n (concat bs ++ y)
  = bs ++ blocks_from (length y) n y.
Proof.
  intros Hn Hbs. induction Hbs as [|b bs Hb _ IH]; [reflexivity|].
  cbn [concat]. rewrite <- app_assoc.
  destruct b as [|x b]; [simpl in Hb; lia|].
  cbn [app length blocks_from].
  change (x :: b ++ concat bs ++ y) with ((x :: b) ++ concat bs ++ y).
  assert (Hf : firstn n (x :: b) = x :: b) by (apply firstn_all2; lia).
  assert (Hs : skipn n (x :: b) = []) by (apply skipn_all2; lia).
  rewrite firstn_app, skipn_app, Hf, Hs, Hb, Nat.sub_diag.
  cbn [firstn skipn app]. rewrite app_nil_r. f_equal.
  rewrite <- IH. apply blocks_from_fuel; [exact Hn| |lia].
  rewrite !length_app. lia.
Qed.

(** Blocks do not straddle a position that is a multiple of the dimension. *)
Lemma apply_blocks_app (A : zmatrix) (x y : list Z) (q : nat) :
  (0 < length A)%nat -> length x = (q * length A)%nat ->
  apply_blocks A (x ++ y) = apply_blocks A x ++ apply_blocks A y.
Proof.
  intros Hn Hx. unfold apply_blocks.
  destruct (aligned_blocks (length A) q x Hx) as [bs [-> Hbs]].
  rewrite blocks_from_app by assumption.
  rewrite blocks_from_concat by (try assumption; lia).
  rewrite map_app, concat_app. reflexivity.
Qed.

(** The complete blocks at the head of a channel are transformed as if
    they were alone. *)
Lemma apply_blocks_padded_firstn (A : zmatrix) (l : list Z) (q : nat) :
  (0 < length A)%nat -> (q * length A <= length l)%nat ->
  firstn (q * length A) (apply_blocks A (padded (length A) l))
  = apply_blocks A (firstn (q * length A) l).
Proof.
  intros Hn Hq. unfold padded.
  rewrite <- (firstn_skipn (q * length A) l) at 1.
  rewrite <- app_assoc.
  assert (Hx : length (firstn (q * length A) l) = (q * length A)%nat)
    by (apply firstn_length_le; exact Hq).
  rewrite (apply_blocks_app A _ _ q Hn Hx).
  pose proof (apply_blocks_length A _ q Hn Hx) as HlenX.
  rewrite firstn_app, HlenX, Hx, Nat.sub_diag. cbn [firstn].
  rewrite app_nil_r. apply firstn_all2. lia.
Qed.

(** One channel through encrypt_image and decrypt_image: the values in the
    complete blocks come back. *)
Lemma channel_complete_blocks (K Kinv : zmatrix) (d : list Z) (i : nat) :
  (0 < length K)%nat -> length Kinv = length K ->
  inverse_mod (length K) 256 Kinv K ->
  Forall (fun x => 0 <= x < 256) d ->
  (i < length K * (length d / length K))%nat ->
  nth i (apply_blocks Kinv
           (padded (length Kinv)
              (firstn (length d) (apply_blocks K (padded (length K) d))))) 0
  = nth i d 0.
Proof.
  intros Hn HlenI Hinv Hbytes Hi.
  set (q := (length d / length K)%nat) in *.
  assert (Hq : (q * length K <= length d)%nat).
  { unfold q. pose proof (Nat.div_mod_eq (length d) (length K)). lia. }
  set (E := apply_blocks K (padded (length K) d)).
  destruct (apply_blocks_padded_length K d Hn) as [HlenE Hle].
  fold E in HlenE.
  assert (HP : firstn (q * length K)
                 (apply_blocks Kinv (padded (length Kinv) (firstn (length d) E)))
               = firstn (q * length K) d).
  { rewrite <- HlenI at 1.
    rewrite (apply_blocks_padded_firstn Kinv (firstn (length d) E) q)
      by (rewrite ?length_firstn; lia).
    rewrite HlenI, firstn_firstn, Nat.min_l by exact Hq.
    unfold E. rewrite (apply_blocks_padded_firstn K d q Hn Hq).
    apply (apply_blocks_inverse K Kinv _ q); try assumption.
    - apply firstn_length_le. exact Hq.
    - apply firstn_bytes. exact Hbytes. }
  assert (Hlt : (i <? q * length K)%nat = true) by (apply Nat.ltb_lt; lia).
  transitivity (nth i (firstn (q * length K)
                  (apply_blocks Kinv
                     (padded (length Kinv) (firstn (length d) E)))) 0).
  - rewrite nth_firstn, Hlt. reflexivity.
  - rewrite HP, nth_firstn, Hlt. reflexivity.
Qed.

Lemma nth_interleave (m : nat) (channels : list (list Z)) (i k : nat) :
  (i < m)%nat -> (k < length channels)%nat ->
  nth (i * length channels + k) (interleave m channels) 0
  = nth i (nth k channels []) 0.
Proof.
  intros Hi Hk. unfold interleave. rewrite nth_concat_uniform.
  - rewrite (nth_map_seq (fun i => map (fun ch => nth i ch 0) channels)) by lia.
    rewrite (nth_indep _ 0 ((fun ch : list Z => nth i ch 0) []))
      by (rewrite length_map; lia).
    apply (map_nth (fun ch : list Z => nth i ch 0)).
  - apply Forall_map, Forall_forall. intros j _. apply length_map.
  - rewrite length_map, length_seq. lia.
  - lia.
Qed.

Lemma nth_map_deinterleave (g : list Z -> list Z) (c m : nat) (d : list Z)
  (k : nat) :
  (k < c)%nat ->
  nth k (map g (deinterleave c m d)) []
  = g (map (fun i => nth (i * c + k) d 0) (seq 0 m)).
Proof.
  intros Hk. unfold deinterleave. rewrite map_map.
  apply (nth_map_seq
           (fun k => g (map (fun i => nth (i * c + k) d 0) (seq 0 m)))).
  exact Hk.
Qed.

(** The array encrypt_image saves, put through decrypt_image. *)
Lemma transform_image_complete_blocks (K Kinv : zmatrix) (a : ndarray)
  (i k : nat) :
  (0 < length K)%nat -> length Kinv = length K ->
  inverse_mod (length K) 256 Kinv K ->
  well_formed a ->
  (i < length K * (channel_length (shape a) / length K))%nat ->
  (k < samples_per_pixel (shape a))%nat ->
  nth (i * samples_per_pixel (shape a) + k)
      (data (transform_image Kinv (transform_image K a))) 0
  = nth (i * samples_per_pixel (shape a) + k) (data a) 0.
Proof.
  intros Hn HlenI Hinv [Hlen Hbytes] Hi Hk.
  destruct a as [sh d]. cbn [shape data] in *.
  assert (Hflat : forall sh' : list nat,
            length d = prod sh' ->
            (i < length K * (prod sh' / length K))%nat ->
            nth (i * 1 + 0)
              (firstn (prod sh')
                 (apply_blocks Kinv
                    (padded (length Kinv)
                       (firstn (prod sh')
                          (apply_blocks K (padded (length K) d)))))) 0
            = nth (i * 1 + 0) d 0).
  { intros sh' Hd Hi'. rewrite Nat.mul_1_r, Nat.add_0_r.
    assert (HiL : (i <? prod sh')%nat = true).
    { apply Nat.ltb_lt.
      pose proof (Nat.div_mod_eq (prod sh') (length K)). lia. }
    rewrite nth_firstn, HiL, <- Hd.
    apply channel_complete_blocks; try assumption. rewrite Hd. exact Hi'. }
  unfold transform_image. cbn [shape data].
  destruct sh as [|h [|w [|c [|x t]]]]; cbn [shape data samples_per_pixel] in *;
    try (replace k with 0%nat by lia; apply Hflat; assumption).
  cbn [channel_length] in Hi. cbn [prod fold_right] in Hlen.
  set (m := (h * w)%nat) in *.
  assert (Hm : (i < m)%nat).
  { pose proof (Nat.div_mod_eq m (length K)). lia. }
  set (CE := map (fun ch => apply_blocks K (padded (length K) ch))
                 (deinterleave c m d)).
  assert (HcE : length CE = c).
  { unfold CE. rewrite length_map. apply deinterleave_length. }
  set (ch := map (fun i => nth (i * c + k) d 0) (seq 0 m)).
  assert (Hch : length ch = m) by (unfold ch; rewrite length_map, length_seq; reflexivity).
  assert (HCEk : nth k CE [] = apply_blocks K (padded (length K) ch)).
  { unfold CE. apply nth_map_deinterleave. exact Hk. }
  set (CD := map (fun ch => apply_blocks Kinv (padded (length Kinv) ch))
                 (deinterleave c m (interleave m CE))).
  assert (HcD : length CD = c).
  { unfold CD. rewrite length_map. apply deinterleave_length. }
  rewrite <- HcD at 1. rewrite nth_interleave by lia.
  unfold CD. rewrite nth_map_deinterleave by exact Hk.
  assert (Hcol : map (fun j => nth (j * c + k) (interleave m CE) 0) (seq 0 m)
                 = firstn (length ch)
                     (apply_blocks K (padded (length K) ch))).
  { rewrite Hch, <- HCEk.
    rewrite <- (map_nth_seq_firstn m (nth k CE [])).
    - apply map_ext_in. intros j Hj. apply in_seq in Hj.
      rewrite <- HcE at 1. apply nth_interleave; lia.
    - rewrite HCEk.
      destruct (apply_blocks_padded_length K ch Hn) as [Hl Hle]. lia. }
  rewrite Hcol.
  rewrite (channel_complete_blocks K Kinv ch i); try assumption.
  - unfold ch. apply (nth_map_seq (fun i => nth (i * c + k) d 0)). exact Hm.
  - unfold ch. apply Forall_map, Forall_forall. intros j Hj.
    apply in_seq in Hj. rewrite Forall_forall in Hbytes.
    apply Hbytes, nth_In. nia.
  - rewrite Hch. exact Hi.
Qed.

(** X18.  The round trip on images of any size.  With a key and a cached
    inverse that are square of the dimension [n] of the block size, the
    inverse times the key being the identity modulo 256, encrypt_image and
    then decrypt_image succeed on every 8-bit image, and the image that
    comes back has the mode and the shape of the original and the original
    value at every position of the first [n * (len / n)] values of each
    channel, [len] being the length of a flattened channel: only the last,
    incomplete block of a channel can differ. *)
Theorem image_round_trip_complete_blocks
  (self : HillCipher) (K Kinv : zmatrix) (img : image) :
  key_matrix self = Some K ->
  inverse_key_matrix self = Some Kinv ->
  is_square K = true ->
  is_square Kinv = true ->
  length Kinv = length K ->
  inverse_mod (length K) 256 Kinv K ->
  block_size self = Z.of_nat (length K) ->
  (0 < length K)%nat ->
  well_formed (pixels img) ->
  shape (pixels img) <> [] ->
  exists (encrypted : image) (md : metadata) (decrypted : image),
    encrypt_image self img = inr (encrypted, md)
    /\ decrypt_image self encrypted (Some md) = inr decrypted
    /\ decrypt_image self encrypted None = inr decrypted
    /\ mode decrypted = mode img
    /\ shape (pixels decrypted) = shape (pixels img)
    /\ forall i k : nat,
         (i < length K
              * (channel_length (shape (pixels img)) / length K))%nat ->
         (k < samples_per_pixel (shape (pixels img)))%nat ->
         nth (i * samples_per_pixel (shape (pixels img)) + k)
             (data (pixels decrypted)) 0
         = nth (i * samples_per_pixel (shape (pixels img)) + k)
               (data (pixels img)) 0.
Proof.
  intros HK HKinv Hsq HsqI HlenI Hinv Hbs Hn Hwf Hne.
  destruct img as [md_mode a]. cbn [pixels mode] in *.
  pose proof Hwf as [Hlen Hbytes].
  destruct (transform_image_well_formed K a Hn Hlen) as [HsE [HlE _]].
  assert (HnI : (0 < length Kinv)%nat) by lia.
  destruct (transform_image_well_formed Kinv (transform_image K a) HnI HlE)
    as [HsD _].
  assert (Henc : transform_array (encrypt_block self) self a (shape a)
                 = inr (transform_image K a)).
  { apply (transform_array_any _ self K); try assumption.
    intros b Hb. apply encrypt_block_square; assumption. }
  assert (Hdec : transform_array (decrypt_block self) self
                   (transform_image K a) (shape a)
                 = inr (transform_image Kinv (transform_image K a))).
  { rewrite <- HsE.
    apply (transform_array_any _ self Kinv); try assumption.
    - rewrite HlenI. exact Hbs.
    - intros b Hb. apply decrypt_block_square; assumption.
    - rewrite HsE. exact Hne. }
  exists {| mode := md_mode; pixels := transform_image K a |}.
  exists {| original_shape := shape a; image_mode := md_mode;
            md_block_size := block_size self; md_key_matrix := K |}.
  exists {| mode := md_mode;
            pixels := transform_image Kinv (transform_image K a) |}.
  unfold encrypt_image, decrypt_image.
  cbn [pixels mode original_shape image_mode].
  rewrite Henc, HK. cbn [bind ret]. rewrite HsE, Hdec. cbn [bind ret].
  repeat (split; [reflexivity|]).
  split; [rewrite HsD; exact HsE|].
  intros i k Hi Hk.
  apply transform_image_complete_blocks; assumption.
Qed.

(** The five-pixel channel of the padding example under the example key:
    the first four values come back. *)
Lemma image_round_trip_complete_blocks_witness :
  exists (encrypted : image) (md : metadata) (decrypted : image),
    encrypt_image cipher_3257 image_1x5 = inr (encrypted, md)
    /\ decrypt_image cipher_3257 encrypted (Some md) = inr decrypted
    /\ decrypt_image cipher_3257 encrypted None = inr decrypted
    /\ mode decrypted = mode image_1x5
    /\ shape (pixels decrypted) = shape (pixels image_1x5)
    /\ forall i k : nat,
         (i < length K_3257
              * (channel_length (shape (pixels image_1x5)) / length K_3257))%nat ->
         (k < samples_per_pixel (shape (pixels image_1x5)))%nat ->
         nth (i * samples_per_pixel (shape (pixels image_1x5)) + k)
             (data (pixels decrypted)) 0
         = nth (i * samples_per_pixel (shape (pixels image_1x5)) + k)
               (data (pixels image_1x5)) 0.
Proof.
  apply (image_round_trip_complete_blocks cipher_3257 K_3257 K_3257_inverse
           image_1x5).
  - reflexivity.
  - reflexivity.
  - reflexivity.
  - reflexivity.
  - reflexivity.
  - exact K_3257_inverse_mod.
  - reflexivity.
  - simpl. lia.
  - split; [reflexivity|].
    cbn. repeat (first [apply Forall_nil | apply Forall_cons]); lia.
  - discriminate.
Defined.

(** ** Key files: what a failed load_key leaves, and generated keys *)



Lemma generate_random_key_accepted
  (np : Numpy) (self0 self : HillCipher) (key : zmatrix) :
  forall samples : list zmatrix,
  generate_random_key np self0 samples = Some (self, key) ->
  exists Kinv : zmatrix,
    matrix_inverse_mod np key 256 = inr Kinv
    /\ self = {| block_size := block_size self0; key_matrix := Some key;
                 inverse_key_matrix := Some Kinv |}.
Proof.
  induction samples as [|s rest IH]; [cbn [generate_random_key]; discriminate|].
  cbn [generate_random_key].
  destruct (rounded_det np s) as [e|d] eqn:Hd; [exact IH|].
  rewrite gcd_spec by (try apply Z.mod_pos_bound; lia).
  destruct (Z.eqb_spec (Z.gcd (d mod 256) 256) 1) as [Hg|Hg]; [|exact IH].
  destruct (matrix_inverse_mod_unit np s d Hd Hg) as [Kinv HKinv].
  rewrite (set_key_matrix_success np self0 s Kinv HKinv). cbn [fst].
  intros H. injection H as <- <-. exists Kinv. split; [exact HKinv | reflexivity].
Qed.

(** X20.  Generating, saving and loading.  The instance generate_random_key
    leaves can always save its key, and loading the saved object into any
    instance, whatever its block size and keys, makes that instance equal
    to the generating one: same block size, same key, same cached inverse. *)
Theorem generated_key_reloads
  (np : Numpy) (self0 self : HillCipher) (key : zmatrix)
  (samples : list zmatrix) :
  generate_random_key np self0 samples = Some (self, key) ->
  exists kd : key_data,
    save_key self = (true, Some kd)
    /\ kd_key_matrix kd = Some key
    /\ kd_block_size kd = Some (block_size self0)
    /\ forall other : HillCipher, load_key np other (Some kd) = (self, true).
Proof.
  intros Hgen.
  destruct (generate_random_key_accepted np self0 self key samples Hgen)
    as [Kinv [HKinv ->]].
  eexists. split; [reflexivity|]. cbn [kd_key_matrix kd_block_size block_size].
  repeat (split; [reflexivity|]).
  intros other. unfold load_key. cbn [kd_key_matrix kd_block_size].
  rewrite (set_key_matrix_success np _ key Kinv HKinv). reflexivity.
Qed.

Lemma generated_key_reloads_witness :
  exists kd : key_data,
    save_key cipher_3257 = (true, Some kd)
    /\ kd_key_matrix kd = Some K_3257
    /\ kd_block_size kd
       = Some (block_size (HillCipher_init correctly_rounded_numpy None 2))
    /\ forall other : HillCipher,
         load_key correctly_rounded_numpy other (Some kd) = (cipher_3257, true).
Proof.
  apply (generated_key_reloads correctly_rounded_numpy
           (HillCipher_init correctly_rounded_numpy None 2)
           cipher_3257 K_3257 [K_singular; K_3257; K_3x3]).
  vm_compute. reflexivity.
Defined.
